(** * SSEA-REPORT: the observer side of the report pipeline

  A shallow embedding of the TypeScript front end:

  - [CacheService] (services/cacheService.ts): the history cache kept in
    the browser's [localStorage] under one key;
  - [ProcessingStatus] (components/ProcessingStatus.tsx): the derivation
    of the per-step display state;
  - [App] (App.tsx): the handler of the server-sent progress events;
  - [FileUpload] (components/FileUpload.tsx): the intake check on the
    dropped file;
  - [AppFlow] (App.tsx, services/api.ts): the connection to the progress
    stream, the upload, the download and the caching of a completed job;
  - [AppStream] (App.tsx): the events of a stream in the tasks in which
    they are dispatched, and the renders in which React runs the effect
    that keeps the connection;
  - [ManualProcess] (components/ManualProcess.tsx): the generation of a
    report from a pasted workflow result;
  - [ReportHistory] (components/ReportHistory.tsx): the panel over the
    history cache.

  JavaScript numbers are modelled by [Z] (the integral values), strings by
  [string] (their UTF-8 bytes; where the code indexes a string, by the
  UTF-16 code units of these), arrays by [list], [undefined] by [None],
  and a thrown exception by the [Throw] outcome. *)

From Stdlib Require Import Ascii.
From stdpp Require Import base numbers list strings gmap sorting pretty.

(** ** JavaScript values, exceptions and array methods *)

Module Js.

Inductive Error : Type :=
| TypeError
| SyntaxError
| QuotaExceededError.

(** The completion of a call: a value, or a thrown exception. *)
Inductive Outcome (A : Type) : Type :=
| Return (a : A)
| Throw (e : Error).
Global Arguments Return {A} a.
Global Arguments Throw {A} e.

(** [Array.prototype.findIndex]: the index of the first element that
    satisfies the predicate, [-1] when there is none. *)
Definition findIndex {A} (P : A → Prop) `{!∀ x, Decision (P x)}
    (l : list A) : Z :=
  match list_find P l with
  | Some (i, _) => Z.of_nat i
  | None => (-1)%Z
  end.

(** [Array.prototype.find]: the first such element, [undefined] when
    there is none. *)
Definition find {A} (P : A → Prop) `{!∀ x, Decision (P x)}
    (l : list A) : option A :=
  match list_find P l with
  | Some (_, x) => Some x
  | None => None
  end.

(** The clamping of a relative index that [slice] applies to both of its
    arguments: a negative index counts from the end. *)
Definition relativeIndex (len i : Z) : Z :=
  if (i <? 0)%Z then Z.max (len + i) 0 else Z.min i len.

(** [Array.prototype.slice(start, end)]. *)
Definition slice {A} (start end_ : Z) (l : list A) : list A :=
  let len := Z.of_nat (length l) in
  let k := relativeIndex len start in
  let final := relativeIndex len end_ in
  take (Z.to_nat (final - k)) (drop (Z.to_nat k) l).

(** The bytes of a string, and the string of a list of bytes. *)
Definition bytesOf (s : string) : list Z :=
  (λ c, Z.of_N (Ascii.N_of_ascii c)) <$> String.list_ascii_of_string s.

Definition stringOf (bytes : list Z) : string :=
  String.string_of_list_ascii
    ((λ b, Ascii.ascii_of_N (Z.to_N b)) <$> bytes).

(** The UTF-16 code units of a string, which are what JavaScript indexes,
    from its UTF-8 bytes: a sequence of one, two or three bytes is one
    code unit, a sequence of four bytes (a code point beyond U+FFFF) is a
    pair of surrogates.  A lone surrogate, which a JavaScript string may
    hold, stands as its three bytes.  A sequence that is cut short is left
    as its bytes. *)
Fixpoint codeUnits (bytes : list Z) : list Z :=
  match bytes with
  | [] => []
  | b1 :: rest1 =>
      if (b1 <? 192)%Z then b1 :: codeUnits rest1
      else
        match rest1 with
        | [] => [b1]
        | b2 :: rest2 =>
            if (b1 <? 224)%Z then
              Z.lor (Z.shiftl (Z.land b1 31) 6) (Z.land b2 63)
                :: codeUnits rest2
            else
              match rest2 with
              | [] => [b1; b2]
              | b3 :: rest3 =>
                  if (b1 <? 240)%Z then
                    Z.lor (Z.shiftl (Z.land b1 15) 12)
                      (Z.lor (Z.shiftl (Z.land b2 63) 6) (Z.land b3 63))
                      :: codeUnits rest3
                  else
                    match rest3 with
                    | [] => [b1; b2; b3]
                    | b4 :: rest4 =>
                        let point :=
                          Z.lor (Z.shiftl (Z.land b1 7) 18)
                            (Z.lor (Z.shiftl (Z.land b2 63) 12)
                               (Z.lor (Z.shiftl (Z.land b3 63) 6)
                                  (Z.land b4 63))) in
                        (55296 + Z.shiftr (point - 65536) 10)%Z
                          :: (56320 + Z.land (point - 65536) 1023)%Z
                          :: codeUnits rest4
                    end
              end
        end
  end.

Definition threeBytes (unit : Z) : list Z :=
  [ (224 + Z.shiftr unit 12)%Z; (128 + Z.land (Z.shiftr unit 6) 63)%Z;
    (128 + Z.land unit 63)%Z ].

(** The UTF-8 bytes of a sequence of code units: a high surrogate with
    the low surrogate that follows it is one code point, of four bytes. *)
Fixpoint utf8 (units : list Z) : list Z :=
  match units with
  | [] => []
  | unit :: rest =>
      if (unit <? 128)%Z then unit :: utf8 rest
      else if (unit <? 2048)%Z then
        (192 + Z.shiftr unit 6)%Z :: (128 + Z.land unit 63)%Z :: utf8 rest
      else
        match rest with
        | low :: rest' =>
            if (55296 <=? unit)%Z && (unit <? 56320)%Z
               && (56320 <=? low)%Z && (low <? 57344)%Z then
              let point :=
                (65536 + Z.shiftl (unit - 55296) 10 + (low - 56320))%Z in
              (240 + Z.shiftr point 18)%Z
                :: (128 + Z.land (Z.shiftr point 12) 63)%Z
                :: (128 + Z.land (Z.shiftr point 6) 63)%Z
                :: (128 + Z.land point 63)%Z :: utf8 rest'
            else threeBytes unit ++ utf8 rest
        | [] => threeBytes unit
        end
  end.

(** [String.prototype.slice(start, end)]: the index arithmetic of the
    arrays, on the code units of the string. *)
Definition sliceString (start end_ : Z) (s : string) : string :=
  stringOf (utf8 (slice start end_ (codeUnits (bytesOf s)))).

(** [Array.prototype.splice(start)] with a non-negative [start] and no
    other argument: every element from index [start] on is removed from
    the array, which keeps its first [start] elements. *)
Definition splice {A} (start : nat) (l : list A) : list A := take start l.

(** [Array.prototype.unshift]. *)
Definition unshift {A} (x : A) (l : list A) : list A := x :: l.

(** [String.prototype.endsWith]. *)
Definition endsWith (s suffix : string) : bool :=
  let n := String.length s in
  let m := String.length suffix in
  if decide (m ≤ n) then String.eqb (String.substring (n - m) m s) suffix
  else false.

(** [a || b] on an optional string: [undefined] and the empty string are
    falsy. *)
Definition orElse (a : option string) (b : string) : string :=
  match a with
  | Some s => if String.eqb s "" then b else s
  | None => b
  end.

End Js.

(** ** services/cacheService.ts *)

Module CacheService.
Import Js.

Record Stats : Type := {
  totalRows : Z;
  cleanedRows : Z;
  duplicatesRemoved : Z;
  domesticSources : Z;
  foreignSources : Z
}.

Record CachedReport : Type := {
  id : string;
  uploadId : Z;
  filename : string;
  uploadTime : string;
  completedTime : string;
  fileSize : Z;
  stats : Stats
}.

Definition CACHE_KEY : string := "nanhai_reports_cache".
Definition MAX_CACHE_SIZE : nat := 50.

(** What [JSON.parse] can hand back to the cache: the array of reports
    that [JSON.stringify] wrote, or some other JSON value.  The declared
    type [CachedReport[]] is not checked at run time, so the other values
    flow through the code as they are.  (Arrays whose elements are not
    reports are left out of the model.) *)
Inductive JsValue : Type :=
| VArray (elements : list CachedReport)
| VNull
| VBool (b : bool)
| VNumber (n : Z)
| VString (s : string)
| VObject.

(** A string kept in the store, up to what the cache can tell about it:
    the empty string, a non-empty text that [JSON.parse] rejects, or the
    JSON text of a value. *)
Inductive Text : Type :=
| Empty
| Malformed
| Json (v : JsValue).

Definition JSON_parse (t : Text) : Outcome JsValue :=
  match t with
  | Json v => Return v
  | Empty | Malformed => Throw SyntaxError
  end.

Definition JSON_stringify (reports : list CachedReport) : Text :=
  Json (VArray reports).

(** [localStorage]: the items by key, and whether the quota is used up,
    in which case [setItem] throws. *)
Record Storage : Type := {
  items : gmap string Text;
  full : bool
}.

(** Code that runs against [localStorage] and may throw. *)
Definition Run (A : Type) : Type := Storage → Outcome A * Storage.

Definition ret {A} (a : A) : Run A := λ ls, (Return a, ls).
Definition throw {A} (e : Error) : Run A := λ ls, (Throw e, ls).
Definition bind {A B} (m : Run A) (k : A → Run B) : Run B :=
  λ ls, match m ls with
        | (Return a, ls') => k a ls'
        | (Throw e, ls') => (Throw e, ls')
        end.
Definition tryCatch {A} (body : Run A) (handler : Error → Run A) : Run A :=
  λ ls, match body ls with
        | (Return a, ls') => (Return a, ls')
        | (Throw e, ls') => handler e ls'
        end.
Definition lift {A} (o : Outcome A) : Run A := λ ls, (o, ls).

Notation "x ⇐ m ;; k" := (bind m (λ x, k))
  (at level 100, m at next level, right associativity).

Definition getItem (key : string) : Run (option Text) :=
  λ ls, (Return (items ls !! key), ls).

Definition setItem (key : string) (value : Text) : Run unit :=
  λ ls, if full ls then (Throw QuotaExceededError, ls)
        else (Return (), {| items := <[key := value]> (items ls);
                            full := full ls |}).

Definition removeItem (key : string) : Run unit :=
  λ ls, (Return (), {| items := delete key (items ls); full := full ls |}).

(** The receiver of an [Array.prototype] method ([findIndex], [find],
    [filter]): calling one on anything but an array is a [TypeError]. *)
Definition asArray (v : JsValue) : Run (list CachedReport) :=
  match v with
  | VArray l => ret l
  | _ => throw TypeError
  end.

Definition getCachedReports : Run JsValue :=
  tryCatch
    (cached ⇐ getItem CACHE_KEY;;
     match cached with
     | None | Some Empty => ret (VArray [])
     | Some text => lift (JSON_parse text)
     end)
    (λ _, ret (VArray [])).

Definition saveCachedReports (reports : list CachedReport) : Run unit :=
  tryCatch (setItem CACHE_KEY (JSON_stringify reports)) (λ _, ret ()).

Definition addReport (report : CachedReport) : Run unit :=
  cached ⇐ getCachedReports;;
  reports ⇐ asArray cached;;
  let existingIndex :=
    findIndex (λ r, uploadId r = uploadId report) reports in
  if decide (existingIndex ≠ (-1)%Z) then
    saveCachedReports (<[Z.to_nat existingIndex := report]> reports)
  else
    let reports := unshift report reports in
    if decide (MAX_CACHE_SIZE < length reports) then
      saveCachedReports (splice MAX_CACHE_SIZE reports)
    else
      saveCachedReports reports.

Definition getReports : Run JsValue := getCachedReports.

Definition getReport (uploadId' : Z) : Run (option CachedReport) :=
  cached ⇐ getCachedReports;;
  reports ⇐ asArray cached;;
  ret (find (λ r, uploadId r = uploadId') reports).

Definition removeReport (uploadId' : Z) : Run unit :=
  cached ⇐ getCachedReports;;
  reports ⇐ asArray cached;;
  saveCachedReports (filter (λ r, uploadId r ≠ uploadId') reports).

Definition clearCache : Run unit := removeItem CACHE_KEY.

(** [slice] exists on arrays and on strings, on nothing else. *)
Definition getRecentReports (limit : option Z) : Run JsValue :=
  let limit := default 10%Z limit in
  cached ⇐ getCachedReports;;
  match cached with
  | VArray reports => ret (VArray (slice 0 limit reports))
  | VString s => ret (VString (sliceString 0 limit s))
  | _ => throw TypeError
  end.

End CacheService.

(** ** components/ProcessingStatus.tsx *)

Module ProcessingStatus.
Import Js.

Record Step : Type := {
  id : string;
  title : string;
  description : string
}.

Definition steps : list Step := [
  {| id := "upload"; title := "文件上传"; description := "上传CSV数据文件" |};
  {| id := "clean"; title := "数据清洗"; description := "清理和标准化数据" |};
  {| id := "dedupe"; title := "数据去重"; description := "去除重复数据" |};
  {| id := "workflow"; title := "AI分析";
     description := "智能分析和数据分离" |};
  {| id := "report"; title := "生成报告";
     description := "生成舆情日报文档" |}
].

(** The four strings that [getStepStatus] returns. *)
Inductive StepStatus : Type :=
| completed
| processing
| error
| pending.

(** [currentStep] and [status] are the properties of the component;
    [status] is declared as one of four literals but is assigned from the
    server's data unchecked, hence a string. *)
Definition getStepStatus (currentStep status : string) (stepId : string)
    : StepStatus :=
  let stepIndex := findIndex (λ s, id s = stepId) steps in
  let currentIndex := findIndex (λ s, id s = currentStep) steps in
  let last := (Z.of_nat (length steps) - 1)%Z in
  let otherwise :=
    if decide (currentStep = "completed" ∧ status = "completed") then
      completed
    else if decide ((stepIndex < currentIndex)%Z ∨
                    (stepIndex = currentIndex ∧ status = "completed")) then
      completed
    else if decide (stepIndex = currentIndex ∧ status = "processing") then
      processing
    else
      pending in
  if decide (status = "failed") then
    if decide (currentStep = "error") then
      if decide (stepIndex = last) then error
      else if decide (stepIndex < last)%Z then completed
      else pending
    else if decide (stepIndex = currentIndex) then error
    else otherwise
  else otherwise.

End ProcessingStatus.

(** ** App.tsx: the handler of the progress stream *)

Module App.
Import Js.

Record ProcessingState : Type := {
  processingId : option Z;
  uploadId : option Z;
  currentStep : string;
  status : string;
  progress : Z;
  message : option string;
  errorMessage : option string
}.

(** The fields that the handler reads from a [progress] event. *)
Record ProgressData : Type := {
  upload_id : option Z;
  current_step : string;
  data_status : string;
  data_progress : Z;
  data_message : option string;
  error_message : option string
}.

(** The parsed event data, by its [type] field. *)
Inductive SSEData : Type :=
| connected
| progressEvent (data : ProgressData)
| finished (status : string)
| errorEvent (message : option string)
| timeout (message : option string)
| unknown (type : string).

(** What the handler reads and writes: the React state, the reference to
    the open [EventSource] ([None] for [null]; the source is the one of
    the given processing id), and the upload ids for which the data
    statistics have been requested. *)
Record AppState : Type := {
  processingState : ProcessingState;
  eventSourceRef : option Z;
  statsRequested : list Z
}.

Definition setProcessingState (f : ProcessingState → ProcessingState)
    (st : AppState) : AppState :=
  {| processingState := f (processingState st);
     eventSourceRef := eventSourceRef st;
     statsRequested := statsRequested st |}.

(** [if (eventSourceRef.current) { close(); eventSourceRef.current = null }] *)
Definition closeEventSource (st : AppState) : AppState :=
  {| processingState := processingState st;
     eventSourceRef := None;
     statsRequested := statsRequested st |}.

(** The request for the statistics of a completed upload.  What its
    promise does once it resolves (the report added to the cache) is not
    part of the handler's run. *)
Definition getDataStats (upload_id : Z) (st : AppState) : AppState :=
  {| processingState := processingState st;
     eventSourceRef := eventSourceRef st;
     statsRequested := statsRequested st ++ [upload_id] |}.

(** A number is truthy unless it is zero. *)
Definition truthy (n : Z) : bool := negb (n =? 0)%Z.

Definition handleProgress (data : SSEData) (st : AppState) : AppState :=
  match data with
  | connected => st
  | progressEvent d =>
      let st :=
        setProcessingState (λ prev,
          {| processingId := processingId prev;
             uploadId := upload_id d;
             currentStep := current_step d;
             status := data_status d;
             progress := data_progress d;
             message := data_message d;
             errorMessage := error_message d |}) st in
      match upload_id d with
      | Some upload_id' =>
          if String.eqb (data_status d) "completed" && truthy upload_id'
          then getDataStats upload_id' st
          else st
      | None => st
      end
  | finished _ => closeEventSource st
  | errorEvent message =>
      closeEventSource
        (setProcessingState (λ prev,
          {| processingId := processingId prev;
             uploadId := uploadId prev;
             currentStep := currentStep prev;
             status := "failed";
             progress := progress prev;
             message := App.message prev;
             errorMessage := message |}) st)
  | timeout message =>
      closeEventSource
        (setProcessingState (λ prev,
          {| processingId := processingId prev;
             uploadId := uploadId prev;
             currentStep := currentStep prev;
             status := "failed";
             progress := progress prev;
             message := App.message prev;
             errorMessage := Some (orElse message "SSE连接超时") |}) st)
  | unknown _ => st
  end.

(** An [EventSource] fires no message event once it has been closed, be it
    by the handler or by the clean-up of the effect that opened it: the
    handler runs only while the reference holds the open source. *)
Definition dispatch (data : SSEData) (st : AppState) : AppState :=
  match eventSourceRef st with
  | Some _ => handleProgress data st
  | None => st
  end.

End App.

(** ** components/FileUpload.tsx *)

Module FileUpload.
Import Js.

Record File : Type := {
  name : string;
  type : string;
  size : Z
}.

(** The component's state (without the drag highlight), with the two
    things it does to the outside: the alerts shown and the files handed
    to [onFileUpload], which is where [App] calls [apiService.uploadFile]. *)
Record State : Type := {
  selectedFile : option File;
  showConfirm : bool;
  alerts : list string;
  uploaded : list File
}.

Definition initial : State :=
  {| selectedFile := None; showConfirm := false;
     alerts := []; uploaded := [] |}.

Definition isCsv (file : File) : bool :=
  String.eqb (type file) "text/csv" || endsWith (name file) ".csv".

Definition onDrop (acceptedFiles : list File) (st : State) : State :=
  match acceptedFiles with
  | file :: _ =>
      if isCsv file then
        {| selectedFile := Some file; showConfirm := true;
           alerts := alerts st; uploaded := uploaded st |}
      else
        {| selectedFile := selectedFile st; showConfirm := showConfirm st;
           alerts := alerts st ++ ["请上传CSV格式的文件"];
           uploaded := uploaded st |}
  | [] => st
  end.

Definition handleConfirmUpload (st : State) : State :=
  match selectedFile st with
  | Some file =>
      {| selectedFile := None; showConfirm := false;
         alerts := alerts st; uploaded := uploaded st ++ [file] |}
  | None => st
  end.

Definition handleCancelUpload (st : State) : State :=
  {| selectedFile := None; showConfirm := false;
     alerts := alerts st; uploaded := uploaded st |}.

(** What the user can do to the component. *)
Inductive Action : Type :=
| Drop (acceptedFiles : list File)
| Confirm
| Cancel.

Definition step (st : State) (a : Action) : State :=
  match a with
  | Drop acceptedFiles => onDrop acceptedFiles st
  | Confirm => handleConfirmUpload st
  | Cancel => handleCancelUpload st
  end.

Definition run (actions : list Action) (st : State) : State :=
  foldl step st actions.

End FileUpload.

(** ** App.tsx: the rest of the component, with services/api.ts *)

Module AppFlow.
Import Js App.

(** [handleError], the callback of [createProgressStream] for errors. *)
Definition handleError (error : string) (st : AppState) : AppState :=
  closeEventSource
    (setProcessingState (λ prev,
      {| processingId := processingId prev;
         uploadId := uploadId prev;
         currentStep := currentStep prev;
         status := "failed";
         progress := progress prev;
         message := App.message prev;
         errorMessage := Some ("连接错误: " +:+ error) |}) st).

(** What a message event carries, by what [JSON.parse] makes of it: no
    JSON, the value [null], or a value that the handler can read (one
    without a [type] that it knows being [unknown]). *)
Inductive MessageData : Type :=
| notJson
| jsonNull
| jsonData (data : SSEData).

(** [createProgressStream], [onmessage]: the parsing and the call of the
    handler stand in one [try]; reading [data.type] of [null] throws before
    the handler has changed anything. *)
Definition onmessage (event : MessageData) (st : AppState) : AppState :=
  match event with
  | jsonData data => handleProgress data st
  | notJson | jsonNull => handleError "数据解析错误" st
  end.

(** [createProgressStream], [onerror]. *)
Definition onerror (st : AppState) : AppState := handleError "连接错误" st.

(** The effect on [processingId] and [status]: the clean-up of its last
    run, then a new stream when there is a processing id and the job is
    being processed.  (The [EventSource] is taken to accept its URL, so
    that the [catch] around its creation stays out.) *)
Definition useEffectConnection (st : AppState) : AppState :=
  let st := closeEventSource st in
  match processingId (processingState st) with
  | Some id =>
      if truthy id && String.eqb (status (processingState st)) "processing"
      then {| processingState := processingState st;
              eventSourceRef := Some id;
              statsRequested := statsRequested st |}
      else st
  | None => st
  end.

(** What the events of an [EventSource] are: messages and errors, none of
    which is fired once the source is closed. *)
Inductive SourceEvent : Type :=
| messageEvent (event : MessageData)
| errorFired.

Definition fire (event : SourceEvent) (st : AppState) : AppState :=
  match eventSourceRef st with
  | Some _ =>
      match event with
      | messageEvent event => onmessage event st
      | errorFired => onerror st
      end
  | None => st
  end.

Definition fireAll (events : list SourceEvent) (st : AppState) : AppState :=
  foldl (λ st event, fire event st) st events.

(** *** Uploading *)

Record UploadResponse : Type := {
  response_upload_id : Z;
  response_processing_id : option Z;
  response_message : string
}.

(** What a [catch] receives: an [Error] with its message, or something
    else. *)
Inductive Thrown : Type :=
| errorObject (message : string)
| otherValue.

(** What [fetch] and the reading of the body come to: a response that is
    [ok] with its body, one that is not with the [detail] of its body (a
    string when there is one), or a rejection. *)
Inductive Fetched (A : Type) : Type :=
| fetchedOk (body : A)
| fetchedError (detail : option string)
| fetchRejected (thrown : Thrown).
Global Arguments fetchedOk {A} body.
Global Arguments fetchedError {A} detail.
Global Arguments fetchRejected {A} thrown.

(** The methods of [ApiService] that read a JSON body: the body, or what
    they throw. *)
Definition readBody {A} (fallback : string) (fetched : Fetched A)
    : A + Thrown :=
  match fetched with
  | fetchedOk body => inl body
  | fetchedError detail => inr (errorObject (orElse detail fallback))
  | fetchRejected thrown => inr thrown
  end.

Definition uploadFile (fetched : Fetched UploadResponse)
    : UploadResponse + Thrown :=
  readBody "文件上传失败" fetched.

Record DataStatsResponse : Type := {
  total_rows : Z;
  cleaned_rows : Z;
  duplicates_removed : Z;
  domestic_sources : Z;
  foreign_sources : Z
}.

Definition apiGetDataStats (fetched : Fetched DataStatsResponse)
    : DataStatsResponse + Thrown :=
  readBody "获取数据统计失败" fetched.

(** The state of the component beside the three parts of [AppState], the
    store of the browser, and the upload ids whose download was started. *)
Record Page : Type := {
  app : AppState;
  dataStats : CacheService.Stats;
  reportReady : bool;
  currentFileName : string;
  currentFileSize : Z;
  localStorage : CacheService.Storage;
  downloads : list Z
}.

Definition withApp (f : AppState → AppState) (p : Page) : Page :=
  {| app := f (app p); dataStats := dataStats p;
     reportReady := reportReady p; currentFileName := currentFileName p;
     currentFileSize := currentFileSize p;
     localStorage := localStorage p; downloads := downloads p |}.

(** [handleFileUpload] up to its [await]. *)
Definition handleFileUpload (file : FileUpload.File) (p : Page) : Page :=
  {| app :=
       setProcessingState (λ _,
         {| processingId := None; uploadId := None;
            currentStep := "upload"; status := "processing";
            progress := 0; message := Some "文件上传中...";
            errorMessage := None |}) (app p);
     dataStats := dataStats p;
     reportReady := false;
     currentFileName := FileUpload.name file;
     currentFileSize := FileUpload.size file;
     localStorage := localStorage p;
     downloads := downloads p |}.

(** [handleFileUpload] from its [await] on, by what [uploadFile] came
    to. *)
Definition handleFileUploadSettled (result : UploadResponse + Thrown)
    (p : Page) : Page :=
  match result with
  | inl response =>
      withApp (setProcessingState (λ prev,
        {| processingId := response_processing_id response;
           uploadId := Some (response_upload_id response);
           currentStep := currentStep prev;
           status := status prev;
           progress := 10;
           message := Some (response_message response);
           errorMessage := errorMessage prev |})) p
  | inr error =>
      withApp (setProcessingState (λ prev,
        {| processingId := processingId prev;
           uploadId := uploadId prev;
           currentStep := "upload";
           status := "failed";
           progress := progress prev;
           message := App.message prev;
           errorMessage :=
             Some match error with
                  | errorObject message => message
                  | otherValue =>
                      "文件上传失败，请检查文件格式或网络连接"
                  end |})) p
  end.

(** [handleDownloadReport]: the download is started when there is an
    upload id that is not zero. *)
Definition handleDownloadReport (p : Page) : Page :=
  match uploadId (processingState (app p)) with
  | Some id =>
      if truthy id then
        {| app := app p; dataStats := dataStats p;
           reportReady := reportReady p;
           currentFileName := currentFileName p;
           currentFileSize := currentFileSize p;
           localStorage := localStorage p;
           downloads := downloads p ++ [id] |}
      else p
  | None => p
  end.

(** The clock and the conversion of numbers that the cached report is
    built with: [Date.now()], the two [toISOString()], and the text of a
    number in a template literal. *)
Record Clock : Type := {
  now : Z;
  uploadTimeISO : string;
  completedTimeISO : string;
  numberText : Z → string
}.

Definition statsDataOf (stats : DataStatsResponse) : CacheService.Stats :=
  {| CacheService.totalRows := total_rows stats;
     CacheService.cleanedRows := cleaned_rows stats;
     CacheService.duplicatesRemoved := duplicates_removed stats;
     CacheService.domesticSources := domestic_sources stats;
     CacheService.foreignSources := foreign_sources stats |}.

Definition cachedReportOf (clock : Clock) (upload_id : Z)
    (stats : DataStatsResponse) (fileName : string) (fileSize : Z)
    : CacheService.CachedReport :=
  {| CacheService.id :=
       "report_" +:+ numberText clock upload_id +:+ "_" +:+
       numberText clock (now clock);
     CacheService.uploadId := upload_id;
     CacheService.filename := orElse (Some fileName) "未知文件名";
     CacheService.uploadTime := uploadTimeISO clock;
     CacheService.completedTime := completedTimeISO clock;
     CacheService.fileSize := fileSize;
     CacheService.stats := statsDataOf stats |}.

(** What follows [getDataStats] for a completed upload: with the
    statistics, the state is set and the report cached (an exception of
    [addReport] ends in the [catch], after the state was set); without
    them, nothing happens but a line in the log.  The file name and size
    are those that the handler was created with. *)
Definition afterDataStats (clock : Clock) (fileName : string) (fileSize : Z)
    (upload_id : Z) (result : DataStatsResponse + Thrown) (p : Page) : Page :=
  match result with
  | inl stats =>
      {| app := app p;
         dataStats := statsDataOf stats;
         reportReady := true;
         currentFileName := currentFileName p;
         currentFileSize := currentFileSize p;
         localStorage :=
           (CacheService.addReport
              (cachedReportOf clock upload_id stats fileName fileSize)
              (localStorage p)).2;
         downloads := downloads p |}
  | inr _ => p
  end.

End AppFlow.

(** ** App.tsx: a stream of events and the renders between them *)

Module AppStream.
Import Js App AppFlow.

(** The dependency array of the effect that keeps the connection
    ([processingState.processingId] and [processingState.status]). *)
Definition dependencies (st : AppState) : option Z * string :=
  (processingId (processingState st), status (processingState st)).

(** The events that the source fires one after the other in one task,
    before React renders again: those that reach the handler, the states
    after each of them, and the state after all of them.  Between these
    events only the handler touches the source. *)
Fixpoint deliveredInTask (events : list SSEData) (st : AppState)
    : list SSEData :=
  match events with
  | [] => []
  | data :: events =>
      match eventSourceRef st with
      | Some _ => data :: deliveredInTask events (handleProgress data st)
      | None => []
      end
  end.

Fixpoint observedInTask (events : list SSEData) (st : AppState)
    : list AppState :=
  match events with
  | [] => []
  | data :: events =>
      let st' := dispatch data st in st' :: observedInTask events st'
  end.

Definition dispatchAll (events : list SSEData) (st : AppState) : AppState :=
  foldl (λ st data, dispatch data st) st events.

(** Whether the effect runs again in the render that follows a task:
    React compares the dependencies with those of the render before, in
    which the state was [rendered]. *)
Definition runsAgain (rendered st : AppState) : bool :=
  bool_decide (dependencies st ≠ dependencies rendered).

(** A stream comes as the tasks in which its events are dispatched, with
    a render after each task.  When the effect runs again in that render,
    its clean-up closes the source of the stream; the source that the
    effect may then open is another one, with a stream of its own, and
    what is left of this stream reaches no handler. *)
Fixpoint deliveredIn (tasks : list (list SSEData)) (st : AppState)
    : list SSEData :=
  match tasks with
  | [] => []
  | events :: tasks =>
      let st' := dispatchAll events st in
      deliveredInTask events st ++
      (if runsAgain st st' then [] else deliveredIn tasks st')
  end.

(** The states after each event of the stream; the state of a render in
    which the effect has run again is that of the events that the stream
    carries after it. *)
Fixpoint observedIn (tasks : list (list SSEData)) (st : AppState)
    : list AppState :=
  match tasks with
  | [] => []
  | events :: tasks =>
      let st' := dispatchAll events st in
      observedInTask events st ++
      (if runsAgain st st'
       then replicate (length (concat tasks)) (useEffectConnection st')
       else observedIn tasks st')
  end.

(** The state after the last render. *)
Fixpoint stateAfter (tasks : list (list SSEData)) (st : AppState)
    : AppState :=
  match tasks with
  | [] => st
  | events :: tasks =>
      let st' := dispatchAll events st in
      if runsAgain st st' then useEffectConnection st'
      else stateAfter tasks st'
  end.

(** Each event in a task of its own, so that React renders after every
    event. *)
Definition separately (stream : list SSEData) : list (list SSEData) :=
  (λ data, [data]) <$> stream.

(** The events of a stream that reach the handler, and the states that
    the observer goes through, when React renders after every event. *)
Definition delivered (stream : list SSEData) (st : AppState)
    : list SSEData :=
  deliveredIn (separately stream) st.

Definition observed (stream : list SSEData) (st : AppState)
    : list AppState :=
  observedIn (separately stream) st.

End AppStream.

(** ** components/ManualProcess.tsx *)

Module ManualProcess.
Import Js.

(** The values of [JSON.parse]; an object by its properties, each key
    once. *)
#[warnings="-register-all"]
Inductive Json : Type :=
| JNull
| JBool (b : bool)
| JNumber (n : Z)
| JString (s : string)
| JArray (elements : list Json)
| JObject (properties : list (string * Json)).

(** What the text area holds, by what the component makes of it: nothing
    but white space, a text that [JSON.parse] rejects, or the text of a
    value. *)
Inductive Pasted : Type :=
| blank
| unparseable
| parsed (v : Json).

(** [!v] for a value or [undefined]. *)
Definition falsy (v : option Json) : bool :=
  match v with
  | None | Some JNull => true
  | Some (JBool b) => negb b
  | Some (JNumber n) => (n =? 0)%Z
  | Some (JString s) => String.eqb s ""
  | Some (JArray _) | Some (JObject _) => false
  end.

(** What a [catch] receives. *)
Inductive Caught : Type :=
| syntaxError
| errorWith (message : string)
| notAnError.

(** [v.key] for one of the three keys that the component reads: the
    property of an object, [undefined] on the other values, and a
    [TypeError] with the message of the engine on [null]. *)
Definition property (engineMessage : string) (key : string) (v : Json)
    : option Json + Caught :=
  match v with
  | JNull => inr (errorWith engineMessage)
  | JObject properties =>
      inl (snd <$> (snd <$> list_find (λ kv, kv.1 = key) properties))
  | _ => inl None
  end.

Record State : Type := {
  jsonInput : Pasted;
  isGenerating : bool;
  error : string;
  success : string;
  posted : list (Json * Json);
  saved : list string
}.

Definition validateJson (input : Pasted) : bool :=
  match input with
  | blank | parsed _ => true
  | unparseable => false
  end.

(** The [disabled] of the button. *)
Definition disabled (st : State) : bool :=
  match jsonInput st with blank => true | _ => false end
  || negb (validateJson (jsonInput st)) || isGenerating st.

(** The body of the request for the pasted value, or what is thrown
    before the request. *)
Definition requestBody (engineMessage : string) (input : Pasted)
    : (Json * Json) + Caught :=
  match input with
  | blank | unparseable => inr syntaxError
  | parsed jsonData =>
      match property engineMessage "structured_output" jsonData with
      | inr caught => inr caught
      | inl structured =>
          if falsy structured then
            inr (errorWith "JSON格式不正确，请确保包含structured_output字段")
          else
            let structuredOutput := default JNull structured in
            match property engineMessage "domestic_sources" structuredOutput,
                  property engineMessage "foreign_sources" structuredOutput
            with
            | inl domestic, inl foreign =>
                if falsy domestic || falsy foreign then
                  inr (errorWith
                         "JSON中缺少domestic_sources或foreign_sources字段")
                else inl (default JNull domestic, default JNull foreign)
            | inr caught, _ | _, inr caught => inr caught
            end
      end
  end.

(** What the request comes to: a response that is [ok], with the first
    group of the match of its [content-disposition] header against the
    pattern for the file name if it has matched; a response that is not,
    with the [detail] of its body; or what was thrown on the way (a
    [SyntaxError] when the body of the response is no JSON). *)
Inductive Response : Type :=
| responseOk (filenameMatch : option string)
| responseError (detail : option string)
| responseThrown (caught : Caught).

(** The [replace] that deletes every single and every double quote
    (character 34). *)
Fixpoint withoutQuotes (s : string) : string :=
  match s with
  | EmptyString => EmptyString
  | String c s =>
      if (Ascii.eqb c "'" || Ascii.eqb c "034")%char then withoutQuotes s
      else String c (withoutQuotes s)
  end.

Definition filenameOf (filenameMatch : option string) : string :=
  match filenameMatch with
  | Some group =>
      if String.eqb group "" then "南海舆情日报.docx" else withoutQuotes group
  | None => "南海舆情日报.docx"
  end.

(** The [catch] and the [finally] of [handleGenerateReport]. *)
Definition caughtAndFinally (caught : Caught) (st : State) : State :=
  {| jsonInput := jsonInput st;
     isGenerating := false;
     error :=
       match caught with
       | syntaxError => "JSON格式错误，请检查粘贴的内容是否完整"
       | errorWith message => message
       | notAnError => "生成报告失败，请重试"
       end;
     success := success st;
     posted := posted st;
     saved := saved st |}.

(** [handleGenerateReport] up to the [await] of its request: the state at
    that point, which is the last one when nothing was posted. *)
Definition handleGenerateReport (engineMessage : string) (st : State)
    : State :=
  match jsonInput st with
  | blank =>
      {| jsonInput := jsonInput st; isGenerating := isGenerating st;
         error := "请粘贴Dify工作流的JSON响应结果";
         success := success st; posted := posted st; saved := saved st |}
  | _ =>
      let st := {| jsonInput := jsonInput st; isGenerating := true;
                   error := ""; success := "";
                   posted := posted st; saved := saved st |} in
      match requestBody engineMessage (jsonInput st) with
      | inl body =>
          {| jsonInput := jsonInput st; isGenerating := true;
             error := error st; success := success st;
             posted := posted st ++ [body]; saved := saved st |}
      | inr caught => caughtAndFinally caught st
      end
  end.

(** [handleGenerateReport] from the [await] on. *)
Definition handleGenerateReportSettled (response : Response) (st : State)
    : State :=
  match response with
  | responseOk filenameMatch =>
      {| jsonInput := blank;
         isGenerating := false;
         error := error st;
         success := "报告生成成功并已下载！";
         posted := posted st;
         saved := saved st ++ [filenameOf filenameMatch] |}
  | responseError detail =>
      caughtAndFinally (errorWith (orElse detail "生成报告失败")) st
  | responseThrown caught => caughtAndFinally caught st
  end.

(** The text area: typing clears the two messages. *)
Definition onChange (input : Pasted) (st : State) : State :=
  {| jsonInput := input; isGenerating := isGenerating st;
     error := ""; success := ""; posted := posted st; saved := saved st |}.

End ManualProcess.

(** ** components/ReportHistory.tsx *)

Module ReportHistory.
Import Js CacheService.

(** The state of the panel, with what it does to the page: the alerts it
    raises, the links that [apiService.downloadReport] clicks, by upload
    id, and the calls of [onRefresh]. *)
Record State : Type := {
  cachedReports : JsValue;
  downloadingIds : gset Z;
  alerts : list string;
  downloads : list Z;
  refreshes : nat
}.

Definition initial : State :=
  {| cachedReports := VArray []; downloadingIds := ∅; alerts := [];
     downloads := []; refreshes := 0 |}.

Definition setCachedReports (reports : JsValue) (st : State) : State :=
  {| cachedReports := reports; downloadingIds := downloadingIds st;
     alerts := alerts st; downloads := downloads st;
     refreshes := refreshes st |}.

Definition setDownloadingIds (f : gset Z → gset Z) (st : State) : State :=
  {| cachedReports := cachedReports st;
     downloadingIds := f (downloadingIds st);
     alerts := alerts st; downloads := downloads st;
     refreshes := refreshes st |}.

Definition onRefresh (st : State) : State :=
  {| cachedReports := cachedReports st;
     downloadingIds := downloadingIds st;
     alerts := alerts st; downloads := downloads st;
     refreshes := S (refreshes st) |}.

Definition loadCachedReports (st : State) : Run State :=
  reports ⇐ getRecentReports (Some 20%Z);;
  ret (setCachedReports reports st).

(** The effect on mounting. *)
Definition mount : Run State := loadCachedReports initial.

(** [handleDownload] up to its [await]; [outcome] is what
    [apiService.downloadReport] comes to, which clicks its link before it
    returns. *)
Definition handleDownloadBegin (outcome : Outcome unit)
    (report : CachedReport) (st : State) : State :=
  let st := setDownloadingIds (λ prev, prev ∪ {[uploadId report]}) st in
  match outcome with
  | Return _ =>
      {| cachedReports := cachedReports st;
         downloadingIds := downloadingIds st;
         alerts := alerts st;
         downloads := downloads st ++ [uploadId report];
         refreshes := refreshes st |}
  | Throw _ => st
  end.

(** [handleDownload] from its [await] on: the [catch] and the
    [finally]. *)
Definition handleDownloadEnd (outcome : Outcome unit)
    (report : CachedReport) (st : State) : State :=
  let st :=
    match outcome with
    | Return _ => st
    | Throw _ =>
        {| cachedReports := cachedReports st;
           downloadingIds := downloadingIds st;
           alerts :=
             alerts st ++ ["下载失败，可能报告文件已被清理，请重新生成"];
           downloads := downloads st;
           refreshes := refreshes st |}
    end in
  setDownloadingIds (λ prev, prev ∖ {[uploadId report]}) st.

(** [apiService.downloadReport] awaits nothing, so that the handler goes
    on from its [await] before another event is handled. *)
Definition handleDownload (outcome : Outcome unit) (report : CachedReport)
    (st : State) : State :=
  handleDownloadEnd outcome report (handleDownloadBegin outcome report st).

(** [confirmed] is the answer to [confirm]. *)
Definition handleRemove (confirmed : bool) (report : CachedReport)
    (st : State) : Run State :=
  if confirmed then
    _ ⇐ removeReport (uploadId report);;
    st ⇐ loadCachedReports st;;
    ret (onRefresh st)
  else ret st.

(** The handler of the button that clears the history. *)
Definition handleClear (confirmed : bool) (st : State) : Run State :=
  if confirmed then
    _ ⇐ clearCache;;
    st ⇐ loadCachedReports st;;
    ret (onRefresh st)
  else ret st.

(** The rows that the panel renders: none when [cachedReports.length] is
    0, else one for each element, by [cachedReports.map], which only an
    array has.  (An object is never loaded: [getRecentReports] throws on
    it.) *)
Definition rows (st : State) : Outcome (list CachedReport) :=
  match cachedReports st with
  | VArray reports => Return reports
  | VString s => if decide (s = "") then Return [] else Throw TypeError
  | _ => Throw TypeError
  end.

(** The download button of a row is disabled while the upload id of the
    row is in [downloadingIds]. *)
Definition downloadDisabled (report : CachedReport) (st : State) : bool :=
  bool_decide (uploadId report ∈ downloadingIds st).

End ReportHistory.

(** * Vocabulary of the properties *)

(** ** Vocabulary: The history cache *)

Module CacheSpec.
Import Js CacheService.


(** What the cache reads from a store: the parsed item, and the empty
    array when the item is absent, empty or not JSON. *)
Definition cachedValue (ls : Storage) : JsValue :=
  match items ls !! CACHE_KEY with
  | Some (Json v) => v
  | _ => VArray []
  end.

(** The cache holds the reports [l], as [getReports] shows them. *)
Definition holds (ls : Storage) (l : list CachedReport) : Prop :=
  getReports ls = (Return (VArray l), ls).

(** The store after a run, and whether the run returned. *)
Definition exec {A} (m : Run A) (ls : Storage) : Storage := (m ls).2.
Definition returns {A} (m : Run A) (ls : Storage) : Prop :=
  ∃ a, (m ls).1 = Return a.

(** The store once [reports] has been written to it. *)
Definition written (reports : list CachedReport) (ls : Storage) : Storage :=
  {| items := <[CACHE_KEY := Json (VArray reports)]> (items ls);
     full := full ls |}.

(** The array that [addReport] saves. *)
Definition added (report : CachedReport) (reports : list CachedReport)
    : list CachedReport :=
  match list_find (λ r, uploadId r = uploadId report) reports with
  | Some (i, _) => <[i := report]> reports
  | None => take MAX_CACHE_SIZE (report :: reports)
  end.

(** A sequence of [addReport] calls. *)
Fixpoint addReports (reports : list CachedReport) : Run unit :=
  match reports with
  | [] => ret ()
  | report :: reports => _ ⇐ addReport report;; addReports reports
  end.

(** The array after a sequence of calls. *)
Definition addedAll (reports l : list CachedReport) : list CachedReport :=
  foldl (λ l report, added report l) l reports.

(** The contract of the history cache in the words of its specification:
    the entries are kept in insertion order, the oldest first; [upsert]
    replaces the entry with the same job id where it stands or else
    inserts the new entry after the others, then evicts the oldest entries
    beyond the capacity. *)
Definition specUpsert (entry : CachedReport) (queue : list CachedReport)
    : list CachedReport :=
  let queue :=
    match list_find (λ r, uploadId r = uploadId entry) queue with
    | Some (i, _) => <[i := entry]> queue
    | None => queue ++ [entry]
    end in
  drop (length queue - MAX_CACHE_SIZE) queue.

Definition specUpsertAll (entries : list CachedReport) : list CachedReport :=
  foldl (λ queue entry, specUpsert entry queue) [] entries.

(** [entry] in the place of every report with its upload id. *)
Definition replaced (entry : CachedReport) (l : list CachedReport)
    : list CachedReport :=
  (λ r, if decide (uploadId r = uploadId entry) then entry else r) <$> l.

Definition emptyStore : Storage := {| items := ∅; full := false |}.

Definition sampleReport (n rows : Z) : CachedReport :=
  {| id := "report"; uploadId := n; filename := "data.csv";
     uploadTime := "2025-01-01T00:00:00.000Z";
     completedTime := "2025-01-01T00:01:00.000Z";
     fileSize := 1024;
     stats := {| totalRows := rows; cleanedRows := rows;
                 duplicatesRemoved := 0; domesticSources := rows;
                 foreignSources := 0 |} |}.

Definition sampleReports (n : nat) : list CachedReport :=
  (λ k, sampleReport (Z.of_nat k) 0) <$> seq 1 n.

End CacheSpec.

(** ** Vocabulary: The handler of the progress stream *)

Module AppSpec.
Import Js App AppStream.


(** The events on which the handler closes the subscription. *)
Definition closes (data : SSEData) : Prop :=
  match data with
  | finished _ | errorEvent _ | timeout _ => True
  | connected | progressEvent _ | unknown _ => False
  end.

Global Instance closes_dec (data : SSEData) : Decision (closes data) :=
  match data return Decision (closes data) with
  | finished _ | errorEvent _ | timeout _ => left I
  | connected | progressEvent _ | unknown _ => right (λ H, H)
  end.

(** The events that end the subscription when React renders after every
    event and the status of the render before is [status]: those on which
    the handler closes it, and the [progress] events that carry another
    status, after which the clean-up of the effect closes it. *)
Definition ends (status : string) (data : SSEData) : Prop :=
  match data with
  | finished _ | errorEvent _ | timeout _ => True
  | progressEvent d => data_status d ≠ status
  | connected | unknown _ => False
  end.

Global Instance ends_dec (status : string) (data : SSEData)
    : Decision (ends status data) :=
  match data return Decision (ends status data) with
  | finished _ | errorEvent _ | timeout _ => left I
  | progressEvent d => decide (data_status d ≠ status)
  | connected | unknown _ => right (λ H, H)
  end.

(** A list up to its first element that satisfies [P], that element
    included; the whole list when there is none. *)
Fixpoint upToFirst {A} (P : A → Prop) `{!∀ x, Decision (P x)}
    (l : list A) : list A :=
  match l with
  | [] => []
  | x :: l => x :: (if decide (P x) then [] else upToFirst P l)
  end.

(** The progress values that the [progress] events of a stream carry. *)
Fixpoint carried (stream : list SSEData) : list Z :=
  match stream with
  | [] => []
  | progressEvent d :: stream => data_progress d :: carried stream
  | _ :: stream => carried stream
  end.

(** The stage, status and progress that the observer shows. *)
Definition shown (st : AppState) : string * string * Z :=
  (currentStep (processingState st), status (processingState st),
   progress (processingState st)).

Definition progressOf (st : AppState) : Z := progress (processingState st).

(** A job half way through, with its stream open. *)
Definition running : AppState :=
  {| processingState :=
       {| processingId := Some 7%Z; uploadId := Some 3%Z;
          currentStep := "clean"; status := "processing";
          progress := 30; message := None; errorMessage := None |};
     eventSourceRef := Some 7%Z;
     statsRequested := [] |}.

Definition progressData (step status : string) (percent : Z)
    : ProgressData :=
  {| upload_id := Some 3%Z; current_step := step; data_status := status;
     data_progress := percent; data_message := None;
     error_message := None |}.

End AppSpec.

(** ** Vocabulary: The intake check *)

Module UploadSpec.
Import Js FileUpload.


(** Whatever is selected or was handed to [onFileUpload] passed the
    check. *)
Definition onlyCsv (st : State) : Prop :=
  (∀ file, selectedFile st = Some file → isCsv file = true) ∧
  (∀ file, file ∈ uploaded st → isCsv file = true).

Definition spreadsheet : File :=
  {| name := "report.xlsx";
     type := "application/vnd.openxmlformats-officedocument.spreadsheetml.sheet";
     size := 2048 |}.

Definition csvFile : File :=
  {| name := "data.csv"; type := "text/csv"; size := 1024 |}.

End UploadSpec.

(** ** Vocabulary: sequences of cache operations *)

Module CacheOps.
Import Js CacheService.

(** The operations by which the pages change the cache. *)
Inductive Op : Type :=
| Add (report : CachedReport)
| Remove (uploadId' : Z)
| Clear.

Definition perform (op : Op) : Run unit :=
  match op with
  | Add report => addReport report
  | Remove uploadId' => removeReport uploadId'
  | Clear => clearCache
  end.

Fixpoint performAll (ops : list Op) : Run unit :=
  match ops with
  | [] => ret ()
  | op :: ops => _ ⇐ perform op;; performAll ops
  end.

End CacheOps.

(** ** Vocabulary: the panel of steps *)

Module StatusSpec.
Import Js ProcessingStatus.

(** The states that the panel shows for its five steps, in their order. *)
Definition statuses (currentStep status : string) : list StepStatus :=
  getStepStatus currentStep status <$> (id <$> steps).

Definition isPending (s : StepStatus) : bool :=
  match s with pending => true | _ => false end.

(** Completed steps first, then at most one step that is being processed
    or has failed, then pending steps only. *)
Fixpoint wellShaped (l : list StepStatus) : bool :=
  match l with
  | [] => true
  | completed :: l => wellShaped l
  | _ :: l => forallb isPending l
  end.

End StatusSpec.

(** ** Vocabulary: the flow of an upload *)

Module AppFlowSpec.
Import Js App AppFlow.

(** The upload ids of the [progress] events of a stream that report a
    completed job and carry an upload id other than zero. *)
Fixpoint completions (stream : list SSEData) : list Z :=
  match stream with
  | [] => []
  | progressEvent d :: stream =>
      match upload_id d with
      | Some id =>
          if String.eqb (data_status d) "completed" && truthy id
          then id :: completions stream
          else completions stream
      | None => completions stream
      end
  | _ :: stream => completions stream
  end.

(** The ways in which the stream fails the job: a [timeout] or [error]
    event, a message that is no JSON or is [null], an error of the
    connection. *)
Inductive Failure : Type :=
| byTimeout (message : option string)
| byErrorEvent (message : option string)
| byMessage (notNull : bool)
| byConnection.

Definition fail (failure : Failure) (st : AppState) : AppState :=
  match failure with
  | byTimeout message => handleProgress (timeout message) st
  | byErrorEvent message => handleProgress (errorEvent message) st
  | byMessage true => onmessage notJson st
  | byMessage false => onmessage jsonNull st
  | byConnection => onerror st
  end.

Definition idlePage : Page :=
  {| app := {| processingState :=
                 {| processingId := None; uploadId := None;
                    currentStep := "idle"; status := "idle"; progress := 0;
                    message := None; errorMessage := None |};
               eventSourceRef := None; statsRequested := [] |};
     dataStats := {| CacheService.totalRows := 0;
                     CacheService.cleanedRows := 0;
                     CacheService.duplicatesRemoved := 0;
                     CacheService.domesticSources := 0;
                     CacheService.foreignSources := 0 |};
     reportReady := false;
     currentFileName := "";
     currentFileSize := 0;
     localStorage := {| CacheService.items := ∅; CacheService.full := false |};
     downloads := [] |}.

Definition sampleClock : Clock :=
  {| now := 1735689600000;
     uploadTimeISO := "2025-01-01T00:00:00.000Z";
     completedTimeISO := "2025-01-01T00:00:00.001Z";
     numberText := pretty |}.

Definition sampleStats : DataStatsResponse :=
  {| total_rows := 120; cleaned_rows := 100; duplicates_removed := 20;
     domestic_sources := 60; foreign_sources := 40 |}.

End AppFlowSpec.

(** ** Vocabulary: what the user did to the upload component *)

Module UploadFlowSpec.
Import Js FileUpload.

(** The files that were dropped and passed the check, in the order of the
    drops. *)
Fixpoint accepted (actions : list Action) : list File :=
  match actions with
  | [] => []
  | Drop (file :: _) :: actions =>
      if isCsv file then file :: accepted actions else accepted actions
  | _ :: actions => accepted actions
  end.

(** The number of times the user confirmed. *)
Fixpoint confirmations (actions : list Action) : nat :=
  match actions with
  | [] => 0
  | Confirm :: actions => S (confirmations actions)
  | _ :: actions => confirmations actions
  end.

(** The number of drops that were turned away. *)
Fixpoint rejections (actions : list Action) : nat :=
  match actions with
  | [] => 0
  | Drop (file :: _) :: actions =>
      if isCsv file then rejections actions else S (rejections actions)
  | _ :: actions => rejections actions
  end.

Definition selection (st : State) : list File :=
  match selectedFile st with
  | Some file => [file]
  | None => []
  end.

End UploadFlowSpec.

(** ** The semi-automatic page in use *)

Module ManualSpec.
Import Js ManualProcess.

(** The component as it is mounted. *)
Definition initial : State :=
  {| jsonInput := blank; isGenerating := false; error := ""; success := "";
     posted := []; saved := [] |}.

(** What happens to the component: a text is typed or pasted into the text
    area, the button is clicked, the request of the last click comes to
    its end. *)
Inductive Event : Type :=
| typed (input : Pasted)
| clicked
| settled (response : Response).

(** A click reaches the handler only through the button that is not
    disabled; a request ends only where one is awaited, which is where
    [isGenerating] is set. *)
Definition step (engineMessage : string) (st : State) (event : Event)
    : State :=
  match event with
  | typed input => onChange input st
  | clicked =>
      if disabled st then st else handleGenerateReport engineMessage st
  | settled response =>
      if isGenerating st then handleGenerateReportSettled response st
      else st
  end.

Definition run (engineMessage : string) (events : list Event) (st : State)
    : State :=
  foldl (step engineMessage) st events.

(** The value of the property [key] of an object. *)
Definition valueOf (key : string) (properties : list (string * Json))
    : option Json :=
  snd <$> (snd <$> list_find (λ kv, kv.1 = key) properties).

Definition truthy (v : Json) : Prop := falsy (Some v) = false.

(** The requests that are awaited: one or none. *)
Definition pending (st : State) : nat :=
  if isGenerating st then 1 else 0.

Definition isSettled (event : Event) : bool :=
  match event with settled _ => true | _ => false end.

(** The events that put a text other than white space into the text
    area. *)
Definition isPaste (event : Event) : bool :=
  match event with
  | typed blank => false
  | typed _ => true
  | _ => false
  end.

Definition settles (events : list Event) : nat :=
  length (filter (λ event, isSettled event = true) events).

Definition pastes (events : list Event) : nat :=
  length (filter (λ event, isPaste event = true) events).

(** The text area holds something to generate from, or a request made
    from it is awaited. *)
Definition unspent (st : State) : nat :=
  match jsonInput st with
  | blank => pending st
  | _ => 1
  end.

Definition quotes : list Ascii.ascii := ["'"; "034"]%char.

(** A pasted response of the workflow. *)
Definition sampleResponse : Json :=
  JObject [("structured_output",
            JObject [("domestic_sources", JArray [JString "a"]);
                     ("foreign_sources", JArray [JString "b"])])].

End ManualSpec.

(** ** The history panel in use *)

Module HistorySpec.
Import Js CacheService ReportHistory.

(** What the user does to the panel: the refresh button, the remove
    button of a row with the answer to its [confirm], the button that
    clears the history with the answer to its [confirm], the download
    button of a row with what [apiService.downloadReport] comes to. *)
Inductive Event : Type :=
| refresh
| remove (row : nat) (confirmed : bool)
| clear (confirmed : bool)
| download (row : nat) (outcome : Outcome unit).

(** The buttons are rendered with the rows only: the panel that shows no
    row, or that failed to render, offers none. *)
Definition step (event : Event) (st : State) : Run State :=
  match rows st with
  | Return (first :: others) =>
      let reports := first :: others in
      match event with
      | refresh => loadCachedReports st
      | remove row confirmed =>
          match reports !! row with
          | Some report => handleRemove confirmed report st
          | None => ret st
          end
      | clear confirmed => handleClear confirmed st
      | download row outcome =>
          match reports !! row with
          | Some report =>
              if downloadDisabled report st then ret st
              else ret (handleDownload outcome report st)
          | None => ret st
          end
      end
  | _ => ret st
  end.

Fixpoint runAll (events : list Event) (st : State) : Run State :=
  match events with
  | [] => ret st
  | event :: events => st ⇐ step event st;; runAll events st
  end.

(** The panel from its mounting on. *)
Definition session (events : list Event) : Run State :=
  st ⇐ mount;; runAll events st.

Definition without (uploadId' : Z) (reports : list CachedReport)
    : list CachedReport :=
  filter (λ r, uploadId r ≠ uploadId') reports.

(** The item of the cache holds the JSON text of [v]. *)
Definition stores (ls : Storage) (v : JsValue) : Prop :=
  items ls !! CACHE_KEY = Some (Json v).

Definition isArray (v : JsValue) : Prop :=
  match v with VArray _ => True | _ => False end.

End HistorySpec.

(** * Properties *)

(** ** The history cache *)

Module CacheFacts.
Import Js CacheService CacheSpec.

Lemma getCachedReports_run ls :
  getCachedReports ls = (Return (cachedValue ls), ls).
Proof.
  unfold getCachedReports, cachedValue, tryCatch, bind, getItem, lift, ret.
  simpl. destruct (items ls !! CACHE_KEY) as [[| |v]|]; reflexivity.
Qed.

Lemma holds_cachedValue ls l : holds ls l ↔ cachedValue ls = VArray l.
Proof.
  unfold holds, getReports. rewrite getCachedReports_run.
  split; [intros [=]; done | intros ->; done].
Qed.

Lemma holds_inj ls l1 l2 : holds ls l1 → holds ls l2 → l1 = l2.
Proof. rewrite !holds_cachedValue. congruence. Qed.

Lemma holds_written l ls : holds (written l ls) l.
Proof.
  apply holds_cachedValue. unfold cachedValue, written. simpl.
  by rewrite lookup_insert_eq.
Qed.

Lemma saveCachedReports_run l ls :
  saveCachedReports l ls =
    (Return (), if full ls then ls else written l ls).
Proof.
  unfold saveCachedReports, tryCatch, setItem, JSON_stringify, written, ret.
  by destruct (full ls).
Qed.

Lemma findIndex_Some {A} (P : A → Prop) `{!∀ x, Decision (P x)} l i x :
  list_find P l = Some (i, x) → findIndex P l = Z.of_nat i.
Proof. unfold findIndex. by intros ->. Qed.

Lemma findIndex_None {A} (P : A → Prop) `{!∀ x, Decision (P x)} l :
  list_find P l = None → findIndex P l = (-1)%Z.
Proof. unfold findIndex. by intros ->. Qed.

Lemma addReport_run report l ls :
  holds ls l →
  addReport report ls =
    (Return (), if full ls then ls else written (added report l) ls).
Proof.
  intros Hl%holds_cachedValue. unfold addReport, bind at 1.
  rewrite getCachedReports_run, Hl. unfold bind, asArray, ret, added.
  destruct (list_find _ l) as [[i x]|] eqn:Hfind.
  - rewrite (findIndex_Some _ _ _ _ Hfind).
    case_decide; [|lia]. rewrite Nat2Z.id. apply saveCachedReports_run.
  - rewrite (findIndex_None _ _ Hfind).
    case_decide; [done|]. unfold unshift, splice.
    case_decide; [apply saveCachedReports_run|].
    rewrite take_ge by lia. apply saveCachedReports_run.
Qed.

(** *** The array kept by [addReport] *)

Lemma MAX_CACHE_SIZE_S : MAX_CACHE_SIZE = S 49.
Proof. reflexivity. Qed.

Local Opaque MAX_CACHE_SIZE.

Lemma list_find_uploadId_None report (l : list CachedReport) :
  list_find (λ r, uploadId r = uploadId report) l = None ↔
  uploadId report ∉ (uploadId <$> l).
Proof.
  rewrite list_find_None, Forall_forall, list_elem_of_fmap. split.
  - intros H (r & Heq & Hr). by apply (H r).
  - intros H r Hr Heq. apply H. by exists r.
Qed.

Lemma added_absent report l :
  uploadId report ∉ (uploadId <$> l) →
  added report l = take MAX_CACHE_SIZE (report :: l).
Proof.
  intros H%list_find_uploadId_None. unfold added. by rewrite H.
Qed.

Lemma added_present report l :
  uploadId report ∈ (uploadId <$> l) →
  ∃ i old, l !! i = Some old ∧ uploadId old = uploadId report ∧
    (∀ j r, l !! j = Some r → j < i → uploadId r ≠ uploadId report) ∧
    added report l = <[i := report]> l.
Proof.
  intros Hin. unfold added.
  destruct (list_find _ l) as [[i old]|] eqn:Hfind.
  - apply list_find_Some in Hfind as (Hi & Hold & Hfirst).
    exists i, old. eauto.
  - by apply list_find_uploadId_None in Hfind.
Qed.

Lemma ids_insert_same (l : list CachedReport) i old report :
  l !! i = Some old → uploadId old = uploadId report →
  (uploadId <$> <[i := report]> l) = (uploadId <$> l).
Proof.
  intros Hi Heq. rewrite list_fmap_insert.
  apply list_insert_id. by rewrite list_lookup_fmap, Hi, <- Heq.
Qed.

Lemma length_added_le report l :
  length l ≤ MAX_CACHE_SIZE → length (added report l) ≤ MAX_CACHE_SIZE.
Proof.
  intros Hle. destruct (decide (uploadId report ∈ (uploadId <$> l))) as [Hin|Hout].
  - destruct (added_present _ _ Hin) as (i & old & _ & _ & _ & ->).
    by rewrite length_insert.
  - rewrite (added_absent _ _ Hout), length_take. lia.
Qed.

Lemma addedAll_snoc reports report l :
  addedAll (reports ++ [report]) l = added report (addedAll reports l).
Proof. unfold addedAll. by rewrite foldl_app. Qed.

Lemma length_addedAll_le reports l :
  length l ≤ MAX_CACHE_SIZE →
  length (addedAll reports l) ≤ MAX_CACHE_SIZE.
Proof.
  revert l. induction reports as [|r rs IH]; intros l Hle; [done|].
  apply IH. by apply length_added_le.
Qed.

Lemma take_app_take {A} (n : nat) (l k : list A) :
  take n (l ++ take n k) = take n (l ++ k).
Proof.
  rewrite !take_app, take_take. do 2 f_equal. lia.
Qed.

(** New reports go to the front, and what does not fit falls off the
    end. *)
Lemma addedAll_fresh reports l :
  length l ≤ MAX_CACHE_SIZE →
  NoDup (uploadId <$> reports) →
  (∀ report, report ∈ reports → uploadId report ∉ uploadId <$> l) →
  addedAll reports l = take MAX_CACHE_SIZE (reverse reports ++ l).
Proof.
  revert l. induction reports as [|r rs IH]; intros l Hle Hnodup Hfresh.
  - by rewrite take_ge.
  - rewrite fmap_cons in Hnodup. apply NoDup_cons in Hnodup as [Hr Hrs].
    change (addedAll (r :: rs) l) with (addedAll rs (added r l)).
    rewrite added_absent by (apply Hfresh; left).
    rewrite IH, take_app_take, reverse_cons, <- app_assoc; [done| |done|].
    + rewrite length_take. lia.
    + intros r' Hr' Hin.
      apply list_elem_of_fmap in Hin as (x & Heq & Hx).
      apply elem_of_take in Hx as (i & Hx%list_elem_of_lookup_2 & _).
      apply elem_of_cons in Hx as [->|Hx].
      * apply Hr. rewrite <- Heq. by apply list_elem_of_fmap_2.
      * apply (Hfresh r'); [by right|]. rewrite Heq.
        by apply list_elem_of_fmap_2.
Qed.

(** Until the cache is full it holds every upload id seen so far, each
    once. *)
Lemma addedAll_seen reports :
  let l := addedAll reports [] in
  NoDup (uploadId <$> l) ∧
  (∀ x, x ∈ uploadId <$> l → x ∈ uploadId <$> reports) ∧
  (length l < MAX_CACHE_SIZE →
   ∀ x, x ∈ uploadId <$> reports → x ∈ uploadId <$> l).
Proof.
  induction reports as [|r rs (Hnodup & Hsub & Hall)] using rev_ind; simpl.
  { split; [constructor|]. by split. }
  rewrite addedAll_snoc, fmap_app. simpl.
  set (l := addedAll rs []) in *.
  destruct (decide (uploadId r ∈ uploadId <$> l)) as [Hin|Hout].
  - destruct (added_present _ _ Hin) as (i & old & Hi & Hold & _ & ->).
    rewrite (ids_insert_same _ _ _ _ Hi Hold), length_insert.
    split; [done|]. split.
    + intros x Hx. apply elem_of_app. left. by apply Hsub.
    + intros Hlt x [Hx|Hx%list_elem_of_singleton]%elem_of_app.
      * by apply Hall.
      * by subst.
  - rewrite (added_absent _ _ Hout), fmap_take, fmap_cons.
    split; [|split].
    + eapply sublist_NoDup; [|apply sublist_take].
      by apply NoDup_cons.
    + intros x (j & Hx%list_elem_of_lookup_2 & _)%elem_of_take.
      apply elem_of_app.
      apply elem_of_cons in Hx as [->|Hx]; [right; by left|left; auto].
    + rewrite length_take. simpl. intros Hlt x Hx.
      rewrite take_ge by (simpl; rewrite length_fmap; lia).
      apply elem_of_app in Hx as [Hx|Hx%list_elem_of_singleton].
      * right. apply Hall; [lia|done].
      * subst. by left.
Qed.

Lemma length_addedAll_distinct reports :
  MAX_CACHE_SIZE ≤ size (list_to_set (uploadId <$> reports) : gset Z) →
  length (addedAll reports []) = MAX_CACHE_SIZE.
Proof.
  intros Hsize.
  pose proof (length_addedAll_le reports [] ltac:(simpl; lia)) as Hle.
  destruct (addedAll_seen reports) as (Hnodup & _ & Hall).
  destruct (decide (length (addedAll reports []) < MAX_CACHE_SIZE))
    as [Hlt|]; [|lia].
  specialize (Hall Hlt).
  assert (size (list_to_set (uploadId <$> reports) : gset Z) ≤
          size (list_to_set (uploadId <$> addedAll reports []) : gset Z))
    as Hsz.
  { apply subseteq_size. intros x Hx%elem_of_list_to_set.
    apply elem_of_list_to_set. by apply Hall. }
  rewrite (size_list_to_set (uploadId <$> addedAll reports [])) in Hsz
    by done.
  rewrite length_fmap in Hsz. lia.
Qed.

(** *** The array against the queue of the specification *)

Lemma insert_replaced (l : list CachedReport) i old report :
  NoDup (uploadId <$> l) →
  l !! i = Some old → uploadId old = uploadId report →
  <[i := report]> l = replaced report l.
Proof.
  intros Hnodup Hi Hold. apply list_eq. intros j. unfold replaced.
  rewrite list_lookup_fmap.
  destruct (decide (j = i)) as [->|Hji].
  - rewrite list_lookup_insert_eq by (by eapply lookup_lt_Some).
    rewrite Hi. simpl. by rewrite decide_True.
  - rewrite list_lookup_insert_ne by done.
    destruct (l !! j) as [r|] eqn:Hj; [|done]. simpl.
    rewrite decide_False; [done|]. intros Heq. apply Hji.
    apply (NoDup_lookup (uploadId <$> l) j i (uploadId report) Hnodup).
    + by rewrite list_lookup_fmap, Hj, <- Heq.
    + by rewrite list_lookup_fmap, Hi, <- Hold.
Qed.

Lemma added_reverse report queue :
  NoDup (uploadId <$> queue) → length queue ≤ MAX_CACHE_SIZE →
  added report (reverse queue) = reverse (specUpsert report queue).
Proof.
  intros Hnodup Hle. unfold specUpsert.
  destruct (list_find _ queue) as [[i old]|] eqn:Hfind.
  - apply list_find_Some in Hfind as (Hi & Hold & _).
    assert (uploadId report ∈ uploadId <$> reverse queue) as Hin.
    { rewrite fmap_reverse, elem_of_reverse, <- Hold.
      apply list_elem_of_fmap_2. by eapply list_elem_of_lookup_2. }
    destruct (added_present _ _ Hin) as (j & old' & Hj & Hold' & _ & ->).
    rewrite length_insert.
    replace (length queue - MAX_CACHE_SIZE) with 0 by lia. rewrite drop_0.
    rewrite (insert_replaced queue i old) by done.
    rewrite (insert_replaced (reverse queue) j old');
      [|by rewrite fmap_reverse, reverse_Permutation|done|done].
    unfold replaced. by rewrite fmap_reverse.
  - apply list_find_uploadId_None in Hfind.
    rewrite added_absent by (by rewrite fmap_reverse, elem_of_reverse).
    by rewrite <- take_reverse, reverse_snoc.
Qed.

Lemma specUpsert_bounded report queue :
  NoDup (uploadId <$> queue) → length queue ≤ MAX_CACHE_SIZE →
  NoDup (uploadId <$> specUpsert report queue) ∧
  length (specUpsert report queue) ≤ MAX_CACHE_SIZE.
Proof.
  intros Hnodup Hle. unfold specUpsert.
  destruct (list_find _ queue) as [[i old]|] eqn:Hfind.
  - apply list_find_Some in Hfind as (Hi & Hold & _).
    rewrite length_insert.
    replace (length queue - MAX_CACHE_SIZE) with 0 by lia. rewrite drop_0.
    by rewrite (ids_insert_same _ _ _ _ Hi Hold), length_insert.
  - apply list_find_uploadId_None in Hfind.
    split; [|rewrite length_drop; lia].
    rewrite fmap_drop. eapply sublist_NoDup; [|apply sublist_drop].
    rewrite fmap_app. simpl. apply NoDup_app. split; [done|].
    split; [|apply NoDup_singleton].
    intros x Hx ->%list_elem_of_singleton. done.
Qed.

Lemma addedAll_specUpsertAll reports :
  addedAll reports [] = reverse (specUpsertAll reports) ∧
  NoDup (uploadId <$> specUpsertAll reports) ∧
  length (specUpsertAll reports) ≤ MAX_CACHE_SIZE.
Proof.
  unfold specUpsertAll.
  induction reports as [|r rs (Heq & Hnodup & Hle)] using rev_ind.
  { split; [done|]. split; [constructor|simpl; lia]. }
  rewrite addedAll_snoc, foldl_app, Heq. simpl.
  split; [by apply added_reverse|by apply specUpsert_bounded].
Qed.

(** *** Running the calls against the store *)

Lemma addReports_run reports l ls :
  holds ls l → full ls = false →
  returns (addReports reports) ls ∧
  holds (exec (addReports reports) ls) (addedAll reports l) ∧
  full (exec (addReports reports) ls) = false.
Proof.
  revert l ls. induction reports as [|r rs IH]; intros l ls Hl Hfull.
  - split; [by exists ()|done].
  - unfold returns, exec in *. simpl. unfold bind.
    rewrite (addReport_run r l ls Hl), Hfull.
    apply (IH (added r l)); [apply holds_written|done].
Qed.

Lemma addedAll_last reports :
  NoDup (uploadId <$> reports) → MAX_CACHE_SIZE ≤ length reports →
  addedAll reports [] =
    reverse (drop (length reports - MAX_CACHE_SIZE) reports).
Proof.
  intros Hnodup Hlen.
  rewrite addedAll_fresh, app_nil_r, take_reverse; [done| |done|].
  - simpl; lia.
  - intros r _. simpl. apply not_elem_of_nil.
Qed.

Lemma NoDup_ids_take n (reports : list CachedReport) :
  NoDup (uploadId <$> reports) → NoDup (uploadId <$> take n reports).
Proof.
  intros H. rewrite fmap_take.
  eapply sublist_NoDup; [exact H|apply sublist_take].
Qed.

Lemma addReports_refused reports l ls :
  holds ls l → full ls = true → addReports reports ls = (Return (), ls).
Proof.
  intros Hl Hfull. induction reports as [|r rs IH]; [done|].
  simpl. unfold bind. by rewrite (addReport_run r l ls Hl), Hfull.
Qed.

(** C1.  From a cache of at most 50 entries, a sequence of [addReport]
    calls returns and never leaves more than 50 entries in the cache, at
    any point of the sequence, whether the store accepts the writes or
    not.  When the store refuses them, the calls leave the store as it
    was: nothing is inserted.  When the store accepts them and the cache
    was empty, the cache that the calls leave is the queue of the
    specification (insertion order, the oldest evicted first), read from
    its newest entry to its oldest.  When the sequence carries more than
    50 distinct upload ids the cache ends with exactly 50 entries.  When
    the calls are for pairwise distinct upload ids, more than 50 of them,
    the cache ends with the 50 reports inserted last, the newest first;
    and each call made once 50 reports are in evicts the one that was
    inserted first among them and keeps the others in their order. *)
Theorem addReport_keeps_most_recent (ls : Storage)
    (l0 reports : list CachedReport) :
  holds ls l0 → length l0 ≤ MAX_CACHE_SIZE →
  returns (addReports reports) ls ∧
  (∀ n, ∃ l, holds (exec (addReports (take n reports)) ls) l ∧
             length l ≤ MAX_CACHE_SIZE) ∧
  (full ls = true → exec (addReports reports) ls = ls) ∧
  (full ls = false → l0 = [] →
   holds (exec (addReports reports) ls) (reverse (specUpsertAll reports)) ∧
   (MAX_CACHE_SIZE < size (list_to_set (uploadId <$> reports) : gset Z) →
    ∃ l, holds (exec (addReports reports) ls) l ∧
         length l = MAX_CACHE_SIZE) ∧
   (NoDup (uploadId <$> reports) → MAX_CACHE_SIZE < length reports →
    holds (exec (addReports reports) ls)
          (reverse (drop (length reports - MAX_CACHE_SIZE) reports))) ∧
   (NoDup (uploadId <$> reports) →
    ∀ n report, reports !! n = Some report → MAX_CACHE_SIZE ≤ n →
    ∃ oldest kept,
      reports !! (n - MAX_CACHE_SIZE) = Some oldest ∧
      kept = reverse (drop (S (n - MAX_CACHE_SIZE)) (take n reports)) ∧
      holds (exec (addReports (take n reports)) ls) (kept ++ [oldest]) ∧
      holds (exec (addReports (take (S n) reports)) ls) (report :: kept))).
Proof.
  intros Hl0 Hle0.
  assert (∀ rs, returns (addReports rs) ls ∧
                ∃ l, holds (exec (addReports rs) ls) l ∧
                     length l ≤ MAX_CACHE_SIZE) as Hany.
  { intros rs. destruct (full ls) eqn:Hfull.
    - unfold returns, exec. rewrite (addReports_refused rs l0 ls Hl0 Hfull).
      split; [by exists ()|]. by exists l0.
    - destruct (addReports_run rs l0 ls Hl0 Hfull) as (Hret & Hheld & _).
      split; [done|]. exists (addedAll rs l0).
      split; [done|]. by apply length_addedAll_le. }
  split; [apply Hany|]. split; [intros n; apply Hany|].
  split.
  { intros Hfull. unfold exec.
    by rewrite (addReports_refused reports l0 ls Hl0 Hfull). }
  intros Hfull ->. rename Hl0 into Hempty.
  pose proof (λ rs, addReports_run rs [] ls Hempty Hfull) as Hrun.
  split; [|split; [|split]].
  - destruct (addedAll_specUpsertAll reports) as [<- _]. apply Hrun.
  - intros Hsize. exists (addedAll reports []).
    split; [apply Hrun|]. apply length_addedAll_distinct. lia.
  - intros Hnodup Hlen. rewrite <- addedAll_last by (done || lia).
    apply Hrun.
  - intros Hnodup n report Hn Hle.
    pose proof (lookup_lt_Some _ _ _ Hn) as Hlt.
    destruct (lookup_lt_is_Some_2 reports (n - MAX_CACHE_SIZE))
      as [oldest Hold]; [lia|].
    exists oldest, (reverse (drop (S (n - MAX_CACHE_SIZE)) (take n reports))).
    split; [done|]. split; [done|].
    assert (length (take n reports) = n) as Hlen
      by (rewrite length_take; lia).
    split.
    + rewrite <- reverse_cons, <- drop_S
        by (rewrite lookup_take_lt; [done|pose proof MAX_CACHE_SIZE_S; lia]).
      replace (n - MAX_CACHE_SIZE)
        with (length (take n reports) - MAX_CACHE_SIZE) by lia.
      rewrite <- addedAll_last by (auto using NoDup_ids_take || lia).
      apply Hrun.
    + replace (report :: reverse (drop (S (n - MAX_CACHE_SIZE))
                                       (take n reports)))
        with (addedAll (take (S n) reports) []); [apply Hrun|].
      rewrite addedAll_last;
        [|by apply NoDup_ids_take|rewrite length_take; lia].
      rewrite (take_S_r _ _ _ Hn), length_app, Hlen. simpl.
      replace (n + 1 - MAX_CACHE_SIZE) with (S (n - MAX_CACHE_SIZE)) by lia.
      rewrite drop_app_le by (pose proof MAX_CACHE_SIZE_S; lia).
      by rewrite reverse_app.
Qed.

(** *** Replacing, removing and reading *)

Lemma getReport_run uploadId' l ls :
  holds ls l →
  getReport uploadId' ls =
    (Return (find (λ r, uploadId r = uploadId') l), ls).
Proof.
  intros Hl%holds_cachedValue. unfold getReport, bind.
  by rewrite getCachedReports_run, Hl.
Qed.

Lemma removeReport_run uploadId' l ls :
  holds ls l →
  removeReport uploadId' ls =
    (Return (),
     let kept := filter (λ r, uploadId r ≠ uploadId') l in
     if full ls then ls else written kept ls).
Proof.
  intros Hl%holds_cachedValue. unfold removeReport, bind at 1.
  rewrite getCachedReports_run, Hl. unfold bind, asArray, ret.
  apply saveCachedReports_run.
Qed.

Lemma getRecentReports_run limit l ls :
  holds ls l →
  getRecentReports limit ls =
    (Return (VArray (slice 0 (default 10%Z limit) l)), ls).
Proof.
  intros Hl%holds_cachedValue. unfold getRecentReports, bind.
  by rewrite getCachedReports_run, Hl.
Qed.

Lemma slice_0_nonneg {A} (limit : Z) (l : list A) :
  (0 ≤ limit)%Z → slice 0 limit l = take (Z.to_nat limit) l.
Proof.
  intros Hlimit. unfold slice, relativeIndex.
  destruct (Z.ltb_spec 0 0); [lia|].
  destruct (Z.ltb_spec limit 0); [lia|].
  rewrite (Z.min_l 0) by lia.
  rewrite Z.sub_0_r, Z2Nat.inj_min, Nat2Z.id. simpl.
  by rewrite <- take_take, firstn_all.
Qed.

Lemma filter_all {A} (P : A → Prop) `{!∀ x, Decision (P x)} (l : list A) :
  (∀ x, x ∈ l → P x) → filter P l = l.
Proof.
  induction l as [|x l IH]; intros Hall; [done|].
  rewrite filter_cons_True by (apply Hall; left).
  f_equal. apply IH. intros y Hy. apply Hall. by right.
Qed.

Lemma slice_nil {A} (start end_ : Z) : slice start end_ (@nil A) = [].
Proof. unfold slice. by rewrite drop_nil, take_nil. Qed.

(** The first entry with the upload id of [report] is [report] itself
    once it has been written over the first such entry. *)
Lemma find_insert_first (l : list CachedReport) i old report :
  l !! i = Some old →
  (∀ j r, l !! j = Some r → j < i → uploadId r ≠ uploadId report) →
  find (λ r, uploadId r = uploadId report) (<[i := report]> l) =
    Some report.
Proof.
  intros Hi Hfirst. unfold find.
  pose proof (lookup_lt_Some _ _ _ Hi) as Hlt.
  assert (list_find (λ r, uploadId r = uploadId report) (<[i := report]> l)
          = Some (i, report)) as ->; [|done].
  apply list_find_Some. split; [by apply list_lookup_insert_eq|].
  split; [done|]. intros j r Hj Hji.
  rewrite list_lookup_insert_ne in Hj by lia. eauto.
Qed.

(** C2.  When the cache already holds an entry with the upload id of
    [report], [addReport] returns.  If the store accepts the write, it
    has written [report] over the first such entry and touched nothing
    else: the number of entries is the same, every other position holds
    what it held, and the entry that [getReport] finds for that upload id
    is [report], with its statistics.  If the store refuses the write,
    the store is what it was, and the entry that [getReport] finds for
    that upload id is the old one. *)
Theorem addReport_replaces_in_place (ls : Storage)
    (l : list CachedReport) (report : CachedReport) :
  holds ls l →
  uploadId report ∈ uploadId <$> l →
  ∃ i old,
    l !! i = Some old ∧ uploadId old = uploadId report ∧
    returns (addReport report) ls ∧
    (full ls = false →
     ∃ l',
       holds (exec (addReport report) ls) l' ∧
       length l' = length l ∧
       l' !! i = Some report ∧
       (∀ j, j ≠ i → l' !! j = l !! j) ∧
       getReport (uploadId report) (exec (addReport report) ls) =
         (Return (Some report), exec (addReport report) ls) ∧
       stats <$> l' !! i = Some (stats report)) ∧
    (full ls = true →
     exec (addReport report) ls = ls ∧
     getReport (uploadId report) (exec (addReport report) ls) =
       (Return (Some old), exec (addReport report) ls)).
Proof.
  intros Hl Hin.
  destruct (added_present _ _ Hin) as (i & old & Hi & Hold & Hfirst & Hadd).
  pose proof (lookup_lt_Some _ _ _ Hi) as Hlt.
  exists i, old.
  unfold returns, exec. rewrite (addReport_run report l ls Hl), Hadd.
  simpl. split; [done|]. split; [done|]. split; [by exists ()|]. split.
  - intros ->. exists (<[i := report]> l).
    split; [apply holds_written|]. split; [apply length_insert|].
    split; [by apply list_lookup_insert_eq|].
    split; [intros j Hj; by apply list_lookup_insert_ne|].
    split.
    + rewrite (getReport_run _ _ _ (holds_written _ ls)).
      by rewrite (find_insert_first _ _ _ _ Hi Hfirst).
    + by rewrite list_lookup_insert_eq.
  - intros ->. split; [done|].
    rewrite (getReport_run _ _ _ Hl). do 2 f_equal.
    unfold find. destruct (list_find _ l) as [[k x]|] eqn:Hfind.
    + apply list_find_Some in Hfind as (Hk & Hx & Hbefore).
      destruct (Nat.lt_trichotomy i k) as [Hlt'|[->|Hgt]].
      * by destruct (Hbefore i old Hi Hlt').
      * congruence.
      * destruct (Hfirst k x Hk Hgt). done.
    + apply list_find_None in Hfind.
      rewrite Forall_forall in Hfind. destruct (Hfind old); [|done].
      by eapply list_elem_of_lookup_2.
Qed.

(** C8.  [removeReport] returns.  If the store accepts the write, it
    leaves in the cache the entries whose upload id differs from the given
    one, each as it was and in the order they had, and none of the
    others.  If the store refuses the write, the store is what it was and
    nothing is removed.  When no entry has the given upload id the
    contents of the cache are what they were. *)
Theorem removeReport_removes_exactly (ls : Storage)
    (l : list CachedReport) (uploadId' : Z) :
  holds ls l →
  returns (removeReport uploadId') ls ∧
  (full ls = false →
   ∃ l', holds (exec (removeReport uploadId') ls) l' ∧
         l' = filter (λ r, uploadId r ≠ uploadId') l ∧
         (∀ r, r ∈ l' ↔ r ∈ l ∧ uploadId r ≠ uploadId') ∧
         l' `sublist_of` l ∧
         uploadId' ∉ uploadId <$> l') ∧
  (full ls = true →
   exec (removeReport uploadId') ls = ls ∧
   holds (exec (removeReport uploadId') ls) l) ∧
  (uploadId' ∉ uploadId <$> l →
   holds (exec (removeReport uploadId') ls) l).
Proof.
  intros Hl. unfold returns, exec.
  rewrite (removeReport_run uploadId' l ls Hl). simpl.
  split; [by exists ()|]. split; [|split].
  - intros ->. eexists. split; [apply holds_written|].
    split; [done|]. split; [|split].
    + intros r. by rewrite list_elem_of_filter, (comm and).
    + apply sublist_filter.
    + intros (r & Heq & Hr%list_elem_of_filter)%list_elem_of_fmap.
      by destruct Hr.
  - by intros ->.
  - intros Hout. destruct (full ls); [done|].
    replace (filter (λ r, uploadId r ≠ uploadId') l) with l;
      [apply holds_written|].
    symmetry. apply filter_all. intros r Hr Heq.
    apply Hout, list_elem_of_fmap. by exists r.
Qed.

(** C6.  For a limit that is not negative (10 when none is given),
    [getRecentReports] returns the first [limit] entries of the cache, in
    the order of the cache, so at most [limit] of them.  In a cache filled
    from empty by [addReport] calls these are the newest entries of the
    specification's queue, the newest first; when the calls were for
    pairwise distinct upload ids, the reports inserted last, the newest
    first. *)
Theorem getRecentReports_newest_first (ls : Storage)
    (l : list CachedReport) (limit : option Z) :
  holds ls l → (0 ≤ default 10 limit)%Z →
  ∃ recent,
    getRecentReports limit ls = (Return (VArray recent), ls) ∧
    recent = take (Z.to_nat (default 10%Z limit)) l ∧
    (Z.of_nat (length recent) ≤ default 10 limit)%Z ∧
    (limit = None → length recent ≤ 10) ∧
    (∀ ls0 reports,
       holds ls0 [] → full ls0 = false →
       ls = exec (addReports reports) ls0 →
       recent = take (Z.to_nat (default 10%Z limit))
                     (reverse (specUpsertAll reports)) ∧
       (NoDup (uploadId <$> reports) →
        recent = take (Z.to_nat (default 10%Z limit) `min` MAX_CACHE_SIZE)
                      (reverse reports))).
Proof.
  intros Hl Hlimit. eexists. split; [|split; [done|]].
  - by rewrite (getRecentReports_run limit l ls Hl), slice_0_nonneg.
  - split; [rewrite length_take; lia|].
    split; [intros ->; rewrite length_take; unfold default; lia|].
    intros ls0 reports Hempty Hfull ->.
    destruct (addReports_run reports [] ls0 Hempty Hfull) as (_ & Hl' & _).
    rewrite (holds_inj _ _ _ Hl Hl'). split.
    + by destruct (addedAll_specUpsertAll reports) as [-> _].
    + intros Hnodup.
      rewrite addedAll_fresh, app_nil_r, take_take; [done|simpl; lia|done|].
      intros r _. simpl. apply not_elem_of_nil.
Qed.

(** C10.  [getReports] returns in every state of the store.  When the
    item is absent, empty or not JSON, the three reads return the empty
    list ([getReport]: [undefined]); when it is the JSON text of an array
    of reports they return entries of that array.  No read changes the
    store. *)
Theorem reads_return (ls : Storage) :
  (∃ v, getReports ls = (Return v, ls)) ∧
  (items ls !! CACHE_KEY = None ∨ items ls !! CACHE_KEY = Some Empty ∨
   items ls !! CACHE_KEY = Some Malformed →
   getReports ls = (Return (VArray []), ls) ∧
   (∀ limit, getRecentReports limit ls = (Return (VArray []), ls)) ∧
   (∀ uploadId', getReport uploadId' ls = (Return None, ls))) ∧
  (∀ l, items ls !! CACHE_KEY = Some (Json (VArray l)) →
   getReports ls = (Return (VArray l), ls) ∧
   (∀ limit, ∃ recent,
      getRecentReports limit ls = (Return (VArray recent), ls) ∧
      recent `sublist_of` l) ∧
   (∀ uploadId', ∃ found,
      getReport uploadId' ls = (Return found, ls) ∧
      ∀ r, found = Some r → r ∈ l ∧ uploadId r = uploadId')).
Proof.
  split; [|split].
  - eexists. apply getCachedReports_run.
  - intros Hitem.
    assert (holds ls []) as Hl.
    { apply holds_cachedValue. unfold cachedValue.
      by destruct Hitem as [->|[->| ->]]. }
    split; [exact Hl|]. split.
    + intros limit. by rewrite (getRecentReports_run limit [] ls Hl), slice_nil.
    + intros uploadId'. by rewrite (getReport_run uploadId' [] ls Hl).
  - intros l Hitem.
    assert (holds ls l) as Hl.
    { apply holds_cachedValue. unfold cachedValue. by rewrite Hitem. }
    split; [exact Hl|]. split.
    + intros limit. eexists.
      split; [apply (getRecentReports_run limit l ls Hl)|].
      unfold slice. etrans; [apply sublist_take|apply sublist_drop].
    + intros uploadId'. eexists.
      split; [apply (getReport_run uploadId' l ls Hl)|].
      unfold find. intros r Hr.
      destruct (list_find _ l) as [[i x]|] eqn:Hfind; [|done].
      apply list_find_Some in Hfind as (Hi & Hx & _).
      injection Hr as ->. split; [|done]. by eapply list_elem_of_lookup_2.
Qed.

(** *** Concrete stores *)

Local Transparent MAX_CACHE_SIZE.

Lemma addReport_keeps_most_recent_witness :
  holds emptyStore [] ∧ full emptyStore = false ∧
  NoDup (uploadId <$> sampleReports 51) ∧
  MAX_CACHE_SIZE < length (sampleReports 51) ∧
  holds (exec (addReports (sampleReports 51)) emptyStore)
        (reverse (drop (length (sampleReports 51) - MAX_CACHE_SIZE)
                       (sampleReports 51))).
Proof.
  assert (holds emptyStore []) as Hempty by reflexivity.
  assert (NoDup (uploadId <$> sampleReports 51)) as Hnodup
    by (apply (bool_decide_unpack _); vm_compute; exact I).
  assert (MAX_CACHE_SIZE < length (sampleReports 51)) as Hlen
    by (vm_compute; lia).
  split; [exact Hempty|]. split; [reflexivity|].
  split; [exact Hnodup|]. split; [exact Hlen|].
  destruct (addReport_keeps_most_recent emptyStore [] (sampleReports 51)
              Hempty (Nat.le_0_l _))
    as (_ & _ & _ & Haccepted).
  destruct (Haccepted eq_refl eq_refl) as (_ & _ & Hlast & _).
  exact (Hlast Hnodup Hlen).
Defined.

(** A store that refuses the writes: 51 reports with distinct upload ids
    are added to the empty cache, every call returns, and the cache holds
    none of them. *)
Lemma addReport_refused_inserts_nothing :
  let ls := {| items := ∅; full := true |} in
  holds ls [] ∧
  NoDup (uploadId <$> sampleReports 51) ∧
  MAX_CACHE_SIZE < length (sampleReports 51) ∧
  holds (exec (addReports (sampleReports 51)) ls) [] ∧
  length ([] : list CachedReport) ≠ MAX_CACHE_SIZE.
Proof.
  split; [reflexivity|].
  split; [apply (bool_decide_unpack _); vm_compute; exact I|].
  split; [vm_compute; lia|].
  split; [vm_compute; reflexivity|discriminate].
Qed.

Lemma addReport_replaces_in_place_witness :
  let ls := written [sampleReport 1 10; sampleReport 2 20] emptyStore in
  let report := sampleReport 2 25 in
  getReport 2 (exec (addReport report) ls) =
    (Return (Some report), exec (addReport report) ls).
Proof.
  intros ls report.
  destruct (addReport_replaces_in_place ls
              [sampleReport 1 10; sampleReport 2 20] report)
    as (i & old & _ & _ & _ & Haccepted & _).
  - apply holds_written.
  - apply (bool_decide_unpack _). vm_compute. exact I.
  - destruct (Haccepted eq_refl) as (l' & _ & _ & _ & _ & Hget & _).
    exact Hget.
Defined.

(** A store that refuses the write: the entry of upload id 2 keeps its
    old statistics, and the cache is what it was. *)
Lemma addReport_refused_keeps_old_stats :
  let l := [sampleReport 1 10; sampleReport 2 20] in
  let ls := {| items := {[ CACHE_KEY := Json (VArray l) ]}; full := true |} in
  let report := sampleReport 2 25 in
  holds ls l ∧
  uploadId report ∈ uploadId <$> l ∧
  addReport report ls = (Return (), ls) ∧
  getReport 2 (exec (addReport report) ls) =
    (Return (Some (sampleReport 2 20)), exec (addReport report) ls) ∧
  stats (sampleReport 2 20) ≠ stats report.
Proof.
  split; [reflexivity|].
  split; [apply (bool_decide_unpack _); vm_compute; exact I|].
  split; [reflexivity|]. split; [reflexivity|discriminate].
Qed.

Lemma removeReport_removes_exactly_witness :
  let l := [sampleReport 1 10; sampleReport 2 20; sampleReport 3 30] in
  let ls := written l emptyStore in
  holds (exec (removeReport 2) ls) [sampleReport 1 10; sampleReport 3 30] ∧
  holds (exec (removeReport 4) ls) l.
Proof.
  intros l ls. split.
  - destruct (removeReport_removes_exactly ls l 2 (holds_written l emptyStore))
      as (_ & Hpresent & _).
    destruct (Hpresent eq_refl) as (l' & Hl' & -> & _). exact Hl'.
  - apply (removeReport_removes_exactly ls l 4 (holds_written l emptyStore)).
    apply (bool_decide_unpack _). vm_compute. exact I.
Defined.

(** A store that refuses the write: [removeReport] returns and the entry
    with the given upload id is still in the cache. *)
Lemma removeReport_refused_removes_nothing :
  let l := [sampleReport 1 10; sampleReport 2 20; sampleReport 3 30] in
  let ls := {| items := {[ CACHE_KEY := Json (VArray l) ]}; full := true |} in
  holds ls l ∧
  removeReport 2 ls = (Return (), ls) ∧
  holds (exec (removeReport 2) ls) l ∧
  getReport 2 (exec (removeReport 2) ls) =
    (Return (Some (sampleReport 2 20)), exec (removeReport 2) ls).
Proof.
  split; [reflexivity|]. split; [reflexivity|]. split; reflexivity.
Qed.

Lemma getRecentReports_newest_first_witness :
  let ls := exec (addReports (sampleReports 3)) emptyStore in
  getRecentReports (Some 2%Z) ls =
    (Return (VArray [sampleReport 3 0; sampleReport 2 0]), ls).
Proof.
  intros ls.
  destruct (getRecentReports_newest_first ls
              [sampleReport 3 0; sampleReport 2 0; sampleReport 1 0]
              (Some 2%Z))
    as (recent & Hget & -> & _).
  - reflexivity.
  - simpl. lia.
  - exact Hget.
Defined.

(** With a negative limit [slice] counts from the end: [-1] drops the last
    entry, and the list returned is longer than the limit. *)
Lemma getRecentReports_negative_limit :
  let ls := written [sampleReport 2 20; sampleReport 1 10] emptyStore in
  holds ls [sampleReport 2 20; sampleReport 1 10] ∧
  getRecentReports (Some (-1)%Z) ls =
    (Return (VArray [sampleReport 2 20]), ls) ∧
  ¬ (Z.of_nat (length [sampleReport 2 20]) ≤ -1)%Z.
Proof.
  split; [reflexivity|]. split; [reflexivity|]. simpl. lia.
Qed.

Lemma reads_return_witness :
  getReports emptyStore = (Return (VArray []), emptyStore) ∧
  getRecentReports None emptyStore = (Return (VArray []), emptyStore) ∧
  getReport 1 emptyStore = (Return None, emptyStore).
Proof.
  destruct (reads_return emptyStore) as (_ & Habsent & _).
  destruct Habsent as (Hall & Hrecent & Hone); [by left|].
  split; [exact Hall|]. split; [apply Hrecent|apply Hone].
Defined.

(** A store whose item is the JSON text [null]: [JSON.parse] returns
    [null], which has neither [slice] nor [find]. *)
Lemma reads_throw_on_null :
  let ls := {| items := {[ CACHE_KEY := Json VNull ]}; full := false |} in
  getReports ls = (Return VNull, ls) ∧
  getRecentReports None ls = (Throw TypeError, ls) ∧
  getReport 1 ls = (Throw TypeError, ls).
Proof. split; [reflexivity|]. split; reflexivity. Qed.

End CacheFacts.

(** ** The per-step display state *)

Module StatusFacts.
Import Js ProcessingStatus.


Lemma findIndex_steps_other stepId :
  stepId ∉ id <$> steps →
  findIndex (λ s, id s = stepId) steps = (-1)%Z.
Proof.
  intros Hout. unfold findIndex.
  destruct (list_find _ steps) as [[i s]|] eqn:Hfind; [|done].
  apply list_find_Some in Hfind as (Hi & Hs & _).
  exfalso. apply Hout. rewrite <- Hs.
  apply list_elem_of_fmap_2. by eapply list_elem_of_lookup_2.
Qed.

(** C9.  With status [failed] and the sentinel [error] as current step,
    the state derived for a step is [error] for [report], the last step,
    and [completed] for every other step id; along the five steps:
    four times [completed], then [error]. *)
Theorem getStepStatus_global_error :
  (∀ stepId,
     getStepStatus "error" "failed" stepId =
       if decide (stepId = "report") then error else completed) ∧
  getStepStatus "error" "failed" <$> (id <$> steps) =
    [completed; completed; completed; completed; error].
Proof.
  split; [|reflexivity].
  intros stepId.
  destruct (decide (stepId ∈ id <$> steps)) as [Hin|Hout].
  - simpl in Hin. set_unfold in Hin.
    destruct Hin as [->|[->|[->|[->|[->|[]]]]]]; reflexivity.
  - rewrite decide_False by (intros ->; apply Hout; set_solver).
    unfold getStepStatus. rewrite (findIndex_steps_other _ Hout).
    reflexivity.
Qed.

End StatusFacts.

(** ** The handler of the progress stream *)

Module AppFacts.
Import Js App AppFlow AppStream AppSpec.

Lemma closes_closed data st :
  closes data → eventSourceRef (handleProgress data st) = None.
Proof. by destruct data. Qed.

Lemma dispatch_closed data st : eventSourceRef st = None → dispatch data st = st.
Proof. unfold dispatch. by intros ->. Qed.

Lemma deliveredInTask_closed events st :
  eventSourceRef st = None → deliveredInTask events st = [].
Proof. intros H. destruct events; simpl; by rewrite ?H. Qed.

Lemma observedInTask_closed events st :
  eventSourceRef st = None →
  observedInTask events st = replicate (length events) st.
Proof.
  intros H. induction events as [|data events IH]; [done|].
  simpl. rewrite dispatch_closed by done. by rewrite IH.
Qed.

Lemma dispatchAll_cons data events st :
  dispatchAll (data :: events) st = dispatchAll events (dispatch data st).
Proof. done. Qed.

Lemma dispatchAll_closed events st :
  eventSourceRef st = None → dispatchAll events st = st.
Proof.
  intros H. induction events as [|data events IH]; [done|].
  by rewrite dispatchAll_cons, dispatch_closed.
Qed.

Lemma runsAgain_same st : runsAgain st st = false.
Proof. unfold runsAgain. apply bool_decide_eq_false_2. by intros H. Qed.

Lemma deliveredIn_closed tasks st :
  eventSourceRef st = None → deliveredIn tasks st = [].
Proof.
  intros H. induction tasks as [|events tasks IH]; [done|]. simpl.
  by rewrite dispatchAll_closed, runsAgain_same, deliveredInTask_closed.
Qed.

Lemma observedIn_closed tasks st :
  eventSourceRef st = None →
  observedIn tasks st = replicate (length (concat tasks)) st.
Proof.
  intros H. induction tasks as [|events tasks IH]; [done|]. simpl.
  rewrite dispatchAll_closed, runsAgain_same, observedInTask_closed, IH
    by done.
  by rewrite length_app, replicate_add.
Qed.

Lemma concat_separately stream : concat (separately stream) = stream.
Proof.
  unfold separately. induction stream as [|data stream IH]; [done|].
  rewrite fmap_cons. cbn [concat app]. by rewrite IH.
Qed.

Lemma observed_closed stream st :
  eventSourceRef st = None → observed stream st = replicate (length stream) st.
Proof.
  intros H. unfold observed.
  by rewrite observedIn_closed, concat_separately.
Qed.

(** *** What a handler changes *)

Lemma progress_handleProgress data st :
  progressOf (handleProgress data st) =
    match data with
    | progressEvent d => data_progress d
    | _ => progressOf st
    end.
Proof.
  destruct data as [|d| | | |]; try reflexivity.
  simpl. destruct (upload_id d); [|done]. by destruct (_ && _).
Qed.

Lemma status_handleProgress data st :
  status (processingState (handleProgress data st)) =
    match data with
    | progressEvent d => data_status d
    | errorEvent _ | timeout _ => "failed"
    | _ => status (processingState st)
    end.
Proof.
  destruct data as [|d| | | |]; try reflexivity.
  simpl. destruct (upload_id d); [|done]. by destruct (_ && _).
Qed.

Lemma processingId_handleProgress data st :
  processingId (processingState (handleProgress data st)) =
    processingId (processingState st).
Proof.
  destruct data as [|d| | | |]; simpl; try done.
  destruct (upload_id d) as [id|]; [|done]. by destruct (_ && _).
Qed.

Lemma source_handleProgress data st :
  eventSourceRef (handleProgress data st) =
    if decide (closes data) then None else eventSourceRef st.
Proof.
  destruct data as [|d| | | |]; try reflexivity.
  simpl. destruct (upload_id d); [|done]. by destruct (_ && _).
Qed.

Lemma processingId_dispatchAll events st :
  processingId (processingState (dispatchAll events st)) =
    processingId (processingState st).
Proof.
  revert st. induction events as [|data events IH]; intros st; [done|].
  rewrite dispatchAll_cons, IH. unfold dispatch.
  destruct (eventSourceRef st); [apply processingId_handleProgress|done].
Qed.

Lemma runsAgain_status events st :
  runsAgain st (dispatchAll events st) =
    bool_decide (status (processingState (dispatchAll events st)) ≠
                 status (processingState st)).
Proof.
  unfold runsAgain, dependencies. rewrite processingId_dispatchAll.
  apply bool_decide_ext. split; [|by intros H [= ?]].
  intros H Heq. apply H. by rewrite Heq.
Qed.

Lemma shown_useEffectConnection st :
  shown (useEffectConnection st) = shown st.
Proof.
  unfold useEffectConnection, shown. simpl.
  destruct (processingId (processingState st)); [|done].
  by destruct (_ && _).
Qed.

Lemma progressOf_useEffectConnection st :
  progressOf (useEffectConnection st) = progressOf st.
Proof.
  pose proof (shown_useEffectConnection st) as H. unfold shown in H.
  by injection H.
Qed.

(** *** The progress along a stream *)

Lemma carried_app l1 l2 : carried (l1 ++ l2) = carried l1 ++ carried l2.
Proof.
  induction l1 as [|data l1 IH]; [done|].
  destruct data; simpl; by rewrite ?IH.
Qed.

Lemma Sorted_repeat_head x l : Sorted Z.le (x :: l) → Sorted Z.le (x :: x :: l).
Proof. intros H. constructor; [done|]. by constructor. Qed.

Lemma Sorted_replicate x n : Sorted Z.le (x :: replicate n x).
Proof.
  induction n as [|n IH]; simpl; [by repeat constructor|].
  by apply Sorted_repeat_head.
Qed.

Lemma task_progress_sorted events st later later' :
  (Sorted Z.le (progressOf (dispatchAll events st) :: later) →
   Sorted Z.le (progressOf (dispatchAll events st) :: later')) →
  Sorted Z.le (progressOf st :: carried (deliveredInTask events st) ++ later) →
  Sorted Z.le
    (progressOf st :: (progressOf <$> observedInTask events st) ++ later').
Proof.
  revert st. induction events as [|data events IH]; intros st Hlater Hsorted.
  { by apply Hlater. }
  rewrite dispatchAll_cons in Hlater. simpl in *. unfold dispatch in *.
  destruct (eventSourceRef st) as [source|] eqn:Hsource.
  - specialize (IH (handleProgress data st) Hlater).
    rewrite progress_handleProgress in *.
    destruct data as [|d| | | |]; simpl in Hsorted;
      try (apply Sorted_repeat_head; by apply IH).
    apply Sorted_inv in Hsorted as [Hsorted Hhd].
    constructor; [by apply IH|].
    constructor. by apply HdRel_inv in Hhd.
  - apply Sorted_repeat_head, IH; [done|].
    by rewrite deliveredInTask_closed.
Qed.

Lemma observedIn_progress_sorted tasks st :
  Sorted Z.le (progressOf st :: carried (deliveredIn tasks st)) →
  Sorted Z.le (progressOf st :: (progressOf <$> observedIn tasks st)).
Proof.
  revert st. induction tasks as [|events tasks IH]; intros st Hsorted.
  { simpl. by repeat constructor. }
  simpl in *. rewrite carried_app in Hsorted. rewrite fmap_app.
  eapply task_progress_sorted; [|done].
  destruct (runsAgain st (dispatchAll events st)).
  - intros _. rewrite fmap_replicate, progressOf_useEffectConnection.
    apply Sorted_replicate.
  - apply IH.
Qed.

(** *** The events that reach the handler *)

Lemma upToFirst_app {A} (P : A → Prop) `{!∀ x, Decision (P x)} l1 l2 :
  upToFirst P (l1 ++ l2) =
    if decide (Exists P l1) then upToFirst P l1 else l1 ++ upToFirst P l2.
Proof.
  induction l1 as [|x l1 IH].
  { destruct (decide (Exists P [])) as [Hex|Hex];
      [by apply Exists_nil in Hex|done]. }
  rewrite <- app_comm_cons. cbn [upToFirst].
  destruct (decide (P x)) as [Hx|Hx].
  - rewrite decide_True; [done|by left].
  - rewrite IH. destruct (decide (Exists P l1)) as [Hex|Hex].
    + rewrite decide_True; [done|by right].
    + rewrite decide_False; [done|]. by intros [?|?]%Exists_cons.
Qed.

Lemma upToFirst_none {A} (P : A → Prop) `{!∀ x, Decision (P x)} l :
  ¬ Exists P l → upToFirst P l = l.
Proof.
  intros Hex. rewrite <- (app_nil_r l) at 1.
  rewrite upToFirst_app, decide_False by done. simpl. apply app_nil_r.
Qed.

Lemma upToFirst_weaken {A} (P Q : A → Prop)
    `{!∀ x, Decision (P x)} `{!∀ x, Decision (Q x)} l :
  (∀ x, P x → Q x) → upToFirst Q l `prefix_of` upToFirst P l.
Proof.
  intros HPQ. induction l as [|x l IH]; [done|]. simpl.
  apply prefix_cons. destruct (decide (Q x)); [apply prefix_nil|].
  destruct (decide (P x)); [naive_solver|done].
Qed.

Lemma upToFirst_last {A} (P : A → Prop) `{!∀ x, Decision (P x)} l i x :
  upToFirst P l !! i = Some x → P x → length (upToFirst P l) = S i.
Proof.
  revert i. induction l as [|y l IH]; intros i Hi Hx; [done|].
  simpl in *. destruct i as [|i]; simpl in Hi.
  - injection Hi as ->. by rewrite decide_True.
  - destruct (decide (P y)); [done|]. f_equal. by apply IH.
Qed.

Lemma closes_ends status data : closes data → ends status data.
Proof. by destruct data. Qed.

Lemma closing_is_last (handled bound : list SSEData) i data :
  handled `prefix_of` upToFirst closes bound →
  handled !! i = Some data → closes data →
  length handled = S i ∧
  ∀ j earlier, j < i → handled !! j = Some earlier → ¬ closes earlier.
Proof.
  intros Hprefix Hi Hdata.
  pose proof (prefix_lookup_Some _ _ _ _ Hi Hprefix) as Hi'.
  pose proof (upToFirst_last _ _ _ _ Hi' Hdata) as Hlen.
  pose proof (prefix_length _ _ Hprefix) as Hle.
  pose proof (lookup_lt_Some _ _ _ Hi) as Hlt.
  split; [lia|]. intros j earlier Hj Hearlier Hcloses.
  pose proof (prefix_lookup_Some _ _ _ _ Hearlier Hprefix) as Hj'.
  pose proof (upToFirst_last _ _ _ _ Hj' Hcloses). lia.
Qed.

Lemma deliveredInTask_open events st :
  is_Some (eventSourceRef st) →
  deliveredInTask events st = upToFirst closes events.
Proof.
  revert st. induction events as [|data events IH]; intros st [source Hst];
    [done|].
  simpl. rewrite Hst. f_equal. destruct (decide (closes data)) as [Hc|Hc].
  - by rewrite deliveredInTask_closed by (by apply closes_closed).
  - apply IH. rewrite source_handleProgress, decide_False by done.
    by exists source.
Qed.

Lemma source_dispatchAll events st :
  eventSourceRef (dispatchAll events st) =
    if decide (Exists closes events) then None else eventSourceRef st.
Proof.
  revert st. induction events as [|data events IH]; intros st.
  { destruct (decide (Exists closes [])) as [H|H];
      [by apply Exists_nil in H|done]. }
  rewrite dispatchAll_cons. unfold dispatch.
  destruct (eventSourceRef st) as [source|] eqn:Hst.
  - rewrite IH, source_handleProgress, Hst.
    destruct (decide (closes data)) as [Hc|Hc].
    + rewrite (decide_True (P := Exists closes (data :: events)))
        by (by left).
      by case_decide.
    + apply decide_ext. rewrite Exists_cons. tauto.
  - rewrite dispatchAll_closed by done. rewrite Hst.
    by destruct (decide (Exists closes (data :: events))).
Qed.

Lemma status_dispatchAll events st :
  ¬ Exists (ends (status (processingState st))) events →
  status (processingState (dispatchAll events st)) =
    status (processingState st).
Proof.
  revert st. induction events as [|data events IH]; intros st Hnone; [done|].
  rewrite Exists_cons in Hnone. rewrite dispatchAll_cons.
  assert (status (processingState (dispatch data st)) =
          status (processingState st)) as Hsame.
  { unfold dispatch. destruct (eventSourceRef st); [|done].
    rewrite status_handleProgress.
    destruct data as [|d| | | |]; simpl in Hnone; try done; try tauto.
    destruct (decide (data_status d = status (processingState st)));
      [done|tauto]. }
  rewrite IH; [done|]. rewrite Hsame. tauto.
Qed.

(** The events that reach the handler lie between what reaches it when
    React renders after every event and what reaches it when the handler
    alone closes the source. *)
Lemma deliveredIn_bounds tasks st :
  is_Some (eventSourceRef st) →
  upToFirst (ends (status (processingState st))) (concat tasks)
    `prefix_of` deliveredIn tasks st ∧
  deliveredIn tasks st `prefix_of` upToFirst closes (concat tasks).
Proof.
  revert st. induction tasks as [|events tasks IH]; intros st Hopen; [done|].
  simpl. rewrite (deliveredInTask_open events st Hopen), !upToFirst_app.
  pose proof (source_dispatchAll events st) as Hsource.
  split.
  - destruct (decide (Exists (ends _) events)) as [Hends|Hends].
    + apply prefix_app_r, upToFirst_weaken, closes_ends.
    + assert (¬ Exists closes events) as Hcloses.
      { intros Hex. apply Hends. eapply Exists_impl; [done|].
        intros data. apply closes_ends. }
      rewrite (upToFirst_none closes) by done.
      pose proof (status_dispatchAll events st Hends) as Hstatus.
      rewrite runsAgain_status.
      rewrite bool_decide_eq_false_2 by (by intros Hne).
      apply prefix_app. rewrite <- Hstatus. apply IH.
      rewrite Hsource, decide_False; done.
  - destruct (decide (Exists closes events)) as [Hcloses|Hcloses].
    + rewrite deliveredIn_closed by done.
      destruct (runsAgain st _); rewrite app_nil_r; reflexivity.
    + rewrite (upToFirst_none closes) by done. apply prefix_app.
      destruct (runsAgain st _); [apply prefix_nil|].
      apply IH. by rewrite Hsource.
Qed.

Lemma delivered_upToFirst stream st :
  is_Some (eventSourceRef st) →
  delivered stream st = upToFirst (ends (status (processingState st))) stream.
Proof.
  unfold delivered.
  revert st. induction stream as [|data stream IH]; intros st [source Hst];
    [done|].
  change (separately (data :: stream)) with ([data] :: separately stream).
  cbn [deliveredIn deliveredInTask upToFirst app].
  rewrite Hst. cbn [app]. f_equal.
  rewrite (runsAgain_status [data] st).
  change (dispatchAll [data] st) with (dispatch data st).
  unfold dispatch. rewrite Hst.
  pose proof (status_handleProgress data st) as Hstatus.
  pose proof (source_handleProgress data st) as Hsource.
  destruct (decide (ends _ data)) as [Hends|Hends].
  - destruct (decide (closes data)) as [Hc|Hc].
    + rewrite deliveredIn_closed by done. by case_bool_decide.
    + destruct data as [|d| | | |]; try done.
      rewrite Hstatus. rewrite bool_decide_eq_true_2; [done|exact Hends].
  - assert (status (processingState (handleProgress data st)) =
            status (processingState st)) as Hsame.
    { rewrite Hstatus. destruct data as [|d| | | |]; simpl in Hends;
        try done; try tauto.
      destruct (decide (data_status d = status (processingState st)));
        [done|tauto]. }
    rewrite bool_decide_eq_false_2 by (by intros H).
    rewrite <- Hsame. apply IH. rewrite Hsource, decide_False.
    + by exists source.
    + intros Hc. by apply Hends, closes_ends.
Qed.

(** C3.  On a [timeout] event the handler closes the subscription and
    leaves the stage, the progress, the two identifiers and the message
    as they were; it sets the status shown for the job to [failed] and
    records the event's message, or the default one, as the error
    message.  Nothing that the stream carries afterwards changes the
    state. *)
Theorem timeout_closes_and_fails (st : AppState) (message : option string) :
  let st' := handleProgress (timeout message) st in
  eventSourceRef st' = None ∧
  currentStep (processingState st') = currentStep (processingState st) ∧
  progress (processingState st') = progress (processingState st) ∧
  processingId (processingState st') = processingId (processingState st) ∧
  uploadId (processingState st') = uploadId (processingState st) ∧
  App.message (processingState st') = App.message (processingState st) ∧
  status (processingState st') = "failed" ∧
  errorMessage (processingState st') =
    Some (orElse message "SSE连接超时") ∧
  statsRequested st' = statsRequested st ∧
  (∀ stream st'', st'' ∈ observed stream st' → st'' = st').
Proof.
  simpl. repeat (split; [reflexivity|]).
  intros stream st'' Hin. rewrite observed_closed in Hin by done.
  by apply elem_of_replicate in Hin as [-> _].
Qed.

Lemma timeout_closes_and_fails_witness :
  let st' := handleProgress (timeout None) running in
  let later := dispatch (progressEvent (progressData "report" "completed" 100))
                        st' in
  status (processingState st') = "failed" ∧ later = st'.
Proof.
  intros st' later.
  destruct (timeout_closes_and_fails running None)
    as (_ & _ & _ & _ & _ & _ & Hstatus & _ & _ & Hafter).
  split; [exact Hstatus|].
  apply (Hafter [progressEvent (progressData "report" "completed" 100)]).
  simpl. left.
Defined.

(** The job was being processed; after the timeout it is shown as
    failed. *)
Lemma timeout_changes_status :
  status (processingState running) = "processing" ∧
  status (processingState (dispatch (timeout None) running)) = "failed" ∧
  status (processingState (dispatch (timeout None) running)) ≠
    status (processingState running).
Proof. split; [reflexivity|]. split; [reflexivity|discriminate]. Qed.

(** C4.  The handler merges what a [progress] event carries without
    comparing it with the state: stage, status and progress become those
    of the event, also when the state is that of a job completed or
    failed.  Every other event leaves stage and progress alone, and the
    status too unless it sets it to [failed].  So, in whatever tasks the
    stream is dispatched, the progress values shown along it are
    non-decreasing whenever the values carried by the [progress] events
    that reach the handler are.  What keeps the events of the stream from
    a state is the end of the subscription: the handler closes it on the
    [finished], [error] and [timeout] events, and the clean-up of the
    effect closes it in the render that follows a task in which the status
    has changed; from then on no event of the stream reaches the handler,
    and stage, status and progress stay. *)
Theorem progress_follows_stream (tasks : list (list SSEData))
    (st : AppState) :
  (∀ d, shown (handleProgress (progressEvent d) st) =
          (current_step d, data_status d, data_progress d)) ∧
  (∀ data, (∀ d, data ≠ progressEvent d) →
     currentStep (processingState (handleProgress data st)) =
       currentStep (processingState st) ∧
     progressOf (handleProgress data st) = progressOf st ∧
     (status (processingState (handleProgress data st)) =
        status (processingState st) ∨
      status (processingState (handleProgress data st)) = "failed")) ∧
  (Sorted Z.le (progressOf st :: carried (deliveredIn tasks st)) →
   Sorted Z.le (progressOf st :: (progressOf <$> observedIn tasks st))) ∧
  (∀ data, closes data → eventSourceRef (handleProgress data st) = None) ∧
  (eventSourceRef st = None →
   deliveredIn tasks st = [] ∧
   ∀ st', st' ∈ observedIn tasks st → st' = st) ∧
  (∀ events,
     status (processingState (dispatchAll events st)) ≠
       status (processingState st) →
     deliveredIn (events :: tasks) st = deliveredInTask events st ∧
     shown <$> observedIn (events :: tasks) st =
       (shown <$> observedInTask events st) ++
       replicate (length (concat tasks)) (shown (dispatchAll events st))).
Proof.
  split; [|split; [|split; [|split; [|split]]]].
  - intros d. unfold shown. simpl.
    destruct (upload_id d); [|done]. by destruct (_ && _).
  - intros [|d| | | |] Hdata; simpl; auto. by destruct (Hdata d).
  - apply observedIn_progress_sorted.
  - intros data. apply closes_closed.
  - intros Hclosed. split; [by apply deliveredIn_closed|].
    intros st' Hin. rewrite observedIn_closed in Hin by done.
    by apply elem_of_replicate in Hin as [-> _].
  - intros events Hstatus. cbn [deliveredIn observedIn].
    rewrite runsAgain_status, bool_decide_eq_true_2 by done.
    split; [apply app_nil_r|].
    by rewrite fmap_app, fmap_replicate, shown_useEffectConnection.
Qed.

Lemma progress_follows_stream_witness :
  let stream := [ progressEvent (progressData "dedupe" "processing" 50);
                  progressEvent (progressData "workflow" "processing" 85);
                  finished "processing";
                  progressEvent (progressData "clean" "processing" 30) ] in
  Sorted Z.le (progressOf running :: (progressOf <$> observed stream running)).
Proof.
  intros stream.
  apply (progress_follows_stream (separately stream) running).
  unfold progressOf. simpl.
  repeat first [ apply Sorted_nil | apply Sorted_cons
               | apply HdRel_nil | apply HdRel_cons | lia ].
Defined.

(** A [progress] event with a lower value resets the progress shown while
    the job is being processed: the status does not change, the stream
    stays open, and the values shown go down from 50 to 30. *)
Lemma progress_reset_is_merged :
  shown <$> observed
    [ progressEvent (progressData "workflow" "processing" 50);
      progressEvent (progressData "clean" "processing" 30) ] running =
    [ ("workflow", "processing", 50%Z); ("clean", "processing", 30%Z) ] ∧
  ¬ Sorted Z.le [50%Z; 30%Z].
Proof.
  split; [reflexivity|].
  intros H. apply Sorted_inv in H as [_ H]. apply HdRel_inv in H. lia.
Qed.

(** C5.  From an open source, and with React rendering after every
    event, the events that reach the handler are those of the stream up
    to the first that ends the subscription, that one included: an event
    on which the handler closes the source ([finished], [error],
    [timeout]), or a [progress] event that changes the status, after
    which the clean-up of the effect closes it.  In whatever tasks the
    stream is dispatched, what reaches the handler begins with these
    events and goes no further than the first event on which the handler
    closes.  So a [finished] event that reaches the handler is the last
    event that does, no [progress], [error] or [timeout] event follows it,
    and none of the three closing kinds comes before it: at most one
    [finished] event is handled. *)
Theorem finished_is_last (tasks : list (list SSEData)) (st : AppState) :
  is_Some (eventSourceRef st) →
  delivered (concat tasks) st =
    upToFirst (ends (status (processingState st))) (concat tasks) ∧
  upToFirst (ends (status (processingState st))) (concat tasks)
    `prefix_of` deliveredIn tasks st ∧
  deliveredIn tasks st `prefix_of` upToFirst closes (concat tasks) ∧
  (∀ i data, deliveredIn tasks st !! i = Some data → closes data →
     length (deliveredIn tasks st) = S i ∧
     ∀ j earlier, j < i → deliveredIn tasks st !! j = Some earlier →
       ¬ closes earlier).
Proof.
  intros Hopen. destruct (deliveredIn_bounds tasks st Hopen) as [Hlow Hup].
  split; [by apply delivered_upToFirst|]. split; [done|]. split; [done|].
  intros i data Hi Hdata. exact (closing_is_last _ _ _ _ Hup Hi Hdata).
Qed.

Lemma finished_is_last_witness :
  let stream := [ connected;
                  progressEvent (progressData "dedupe" "processing" 50);
                  finished "processing";
                  progressEvent (progressData "clean" "processing" 30) ] in
  delivered stream running =
    [ connected; progressEvent (progressData "dedupe" "processing" 50);
      finished "processing" ].
Proof.
  intros stream.
  apply (finished_is_last (separately stream) running).
  by exists 7%Z.
Defined.

(** The handler closes the subscription on the [timeout] and [error]
    events: the [finished] event that the stream carries next does not
    reach it, and the last event handled is the [timeout] or the [error].
    With React rendering after every event the same holds after the
    [progress] event that reports the job completed. *)
Lemma finished_not_delivered_after_timeout :
  delivered [timeout None; finished "failed"] running = [timeout None] ∧
  delivered [errorEvent (Some "failed"); finished "failed"] running =
    [errorEvent (Some "failed")] ∧
  delivered [progressEvent (progressData "completed" "completed" 100);
             finished "completed"] running =
    [progressEvent (progressData "completed" "completed" 100)].
Proof. split; [reflexivity|]. split; reflexivity. Qed.

(** The same two events in one task and in two: dispatched before React
    renders, the [finished] event still reaches the handler; dispatched
    after the render, it does not, the clean-up having closed the
    source. *)
Lemma tasks_decide_what_is_handled :
  let completed100 :=
    progressEvent (progressData "completed" "completed" 100) in
  deliveredIn [[completed100; finished "completed"]] running =
    [completed100; finished "completed"] ∧
  deliveredIn [[completed100]; [finished "completed"]] running =
    [completed100] ∧
  eventSourceRef (stateAfter [[completed100]] running) = None.
Proof. split; [reflexivity|]. split; reflexivity. Qed.

End AppFacts.

(** ** The intake check *)

Module UploadFacts.
Import Js FileUpload UploadSpec.

Lemma onlyCsv_initial : onlyCsv initial.
Proof. split; [done|]. intros file Hin. by apply elem_of_nil in Hin. Qed.

Lemma onlyCsv_step st a : onlyCsv st → onlyCsv (step st a).
Proof.
  intros [Hsel Hup]. destruct a as [files| |]; simpl.
  - destruct files as [|file files]; [exact (conj Hsel Hup)|]. simpl.
    destruct (isCsv file) eqn:Hcsv; split; simpl; try done.
    by intros ? [= <-].
  - unfold handleConfirmUpload.
    destruct (selectedFile st) as [file|] eqn:Hfile;
      [|split; [by rewrite Hfile|exact Hup]].
    split; simpl; [done|].
    intros f [Hf|Hf%list_elem_of_singleton]%elem_of_app; [auto|].
    subst. auto.
  - split; simpl; done.
Qed.

Lemma onlyCsv_run actions st : onlyCsv st → onlyCsv (run actions st).
Proof.
  revert st. induction actions as [|a actions IH]; intros st Hst; [done|].
  apply IH. by apply onlyCsv_step.
Qed.

(** C7.  A file that is not a CSV file (neither its type is [text/csv]
    nor its name ends in [.csv]) is turned away when it is dropped: the
    alert is shown, the file is not selected, and nothing is handed to
    [onFileUpload].  Whatever the user does with the component, that file
    is never handed to [onFileUpload]. *)
Theorem wrong_type_never_uploaded (file : File) :
  isCsv file = false →
  (∀ st others,
     let st' := onDrop (file :: others) st in
     alerts st' = alerts st ++ ["请上传CSV格式的文件"] ∧
     selectedFile st' = selectedFile st ∧
     showConfirm st' = showConfirm st ∧
     uploaded st' = uploaded st) ∧
  (∀ actions, file ∉ uploaded (run actions initial)).
Proof.
  intros Hwrong. split.
  - intros st others. simpl. by rewrite Hwrong.
  - intros actions Hin.
    destruct (onlyCsv_run actions initial onlyCsv_initial) as [_ Hup].
    specialize (Hup file Hin). congruence.
Qed.

Lemma wrong_type_never_uploaded_witness :
  isCsv spreadsheet = false ∧
  spreadsheet ∉
    uploaded (run [Drop [csvFile]; Drop [spreadsheet]; Confirm] initial).
Proof.
  split; [reflexivity|].
  apply (wrong_type_never_uploaded spreadsheet). reflexivity.
Defined.

End UploadFacts.

(** ** More on the history cache *)

Module CacheMore.
Import Js CacheService CacheSpec CacheOps CacheFacts.

Lemma clearCache_run ls :
  clearCache ls =
    (Return (), {| items := delete CACHE_KEY (items ls); full := full ls |}).
Proof. reflexivity. Qed.

Lemma holds_cleared ls : holds (exec clearCache ls) [].
Proof.
  apply holds_cachedValue. unfold exec, cachedValue. rewrite clearCache_run.
  simpl. by rewrite lookup_delete_eq.
Qed.

(** [clearCache] returns whatever the store holds, be it full or hold
    something that is no array of reports; afterwards the cache is empty
    for every read, and it takes reports again. *)
Theorem clearCache_empties (ls : Storage) :
  returns clearCache ls ∧
  holds (exec clearCache ls) [] ∧
  (∀ limit, getRecentReports limit (exec clearCache ls) =
              (Return (VArray []), exec clearCache ls)) ∧
  (∀ uploadId', getReport uploadId' (exec clearCache ls) =
                  (Return None, exec clearCache ls)) ∧
  (∀ report, full ls = false →
     holds (exec (addReport report) (exec clearCache ls)) [report]).
Proof.
  pose proof (holds_cleared ls) as Hl.
  split; [by exists ()|]. split; [done|]. split; [|split].
  - intros limit. by rewrite (getRecentReports_run limit [] _ Hl), slice_nil.
  - intros uploadId'. by rewrite (getReport_run uploadId' [] _ Hl).
  - intros report Hfull. unfold exec at 1.
    rewrite (addReport_run report [] _ Hl).
    replace (full (exec clearCache ls)) with false by done.
    apply holds_written.
Qed.

Lemma clearCache_empties_witness :
  holds (exec (addReport (sampleReport 1 0)) (exec clearCache emptyStore))
        [sampleReport 1 0].
Proof. apply (clearCache_empties emptyStore). reflexivity. Defined.

Lemma find_cons_True {A} (P : A → Prop) `{!∀ x, Decision (P x)} x l :
  P x → find P (x :: l) = Some x.
Proof. intros Hx. unfold find. simpl. by rewrite decide_True. Qed.

Lemma find_cons_False {A} (P : A → Prop) `{!∀ x, Decision (P x)} x l :
  ¬ P x → find P (x :: l) = find P l.
Proof.
  intros Hx. unfold find. simpl. rewrite decide_False by done.
  by destruct (list_find P l) as [[i y]|].
Qed.

Lemma find_None {A} (P : A → Prop) `{!∀ x, Decision (P x)} l :
  find P l = None ↔ ∀ x, x ∈ l → ¬ P x.
Proof.
  unfold find. destruct (list_find P l) as [[i y]|] eqn:Hfind.
  - apply list_find_Some in Hfind as (Hi & Hy & _).
    split; [done|]. intros Hall. destruct (Hall y); [|done].
    by eapply list_elem_of_lookup_2.
  - apply list_find_None in Hfind. by rewrite Forall_forall in Hfind.
Qed.

(** An entry written over one that the predicate treats alike does not
    change what [find] returns for another predicate. *)
Lemma find_insert_other {A} (P : A → Prop) `{!∀ x, Decision (P x)}
    (l : list A) i old new :
  l !! i = Some old → ¬ P old → ¬ P new →
  find P (<[i := new]> l) = find P l.
Proof.
  revert i. induction l as [|x l IH]; intros i Hi Hold Hnew; [done|].
  destruct i as [|i]; simpl in *.
  - injection Hi as ->. by rewrite !find_cons_False.
  - destruct (decide (P x)) as [Hx|Hx].
    + by rewrite !find_cons_True.
    + rewrite !find_cons_False by done. by apply IH.
Qed.

Lemma find_take_all {A} (P : A → Prop) `{!∀ x, Decision (P x)} n (l : list A) :
  length l ≤ n → find P (take n l) = find P l.
Proof. intros Hle. by rewrite take_ge. Qed.

Lemma find_added report l :
  find (λ r, uploadId r = uploadId report) (added report l) = Some report.
Proof.
  destruct (decide (uploadId report ∈ uploadId <$> l)) as [Hin|Hout].
  - destruct (added_present _ _ Hin) as (i & old & Hi & _ & Hfirst & ->).
    by eapply find_insert_first.
  - rewrite (added_absent _ _ Hout). by apply find_cons_True.
Qed.

(** What is added can be read back: after [addReport], [getReport] with the
    upload id of the report returns that report, be the id new to the cache
    or not. *)
Theorem addReport_then_getReport (ls : Storage) (l : list CachedReport)
    (report : CachedReport) :
  holds ls l → full ls = false →
  getReport (uploadId report) (exec (addReport report) ls) =
    (Return (Some report), exec (addReport report) ls).
Proof.
  intros Hl Hfull. unfold exec.
  rewrite (addReport_run report l ls Hl), Hfull. simpl.
  rewrite (getReport_run _ _ _ (holds_written _ ls)).
  by rewrite find_added.
Qed.

Lemma addReport_then_getReport_witness :
  let ls := written [sampleReport 1 10] emptyStore in
  getReport 2 (exec (addReport (sampleReport 2 20)) ls) =
    (Return (Some (sampleReport 2 20)),
     exec (addReport (sampleReport 2 20)) ls).
Proof.
  intros ls.
  apply (addReport_then_getReport ls [sampleReport 1 10] (sampleReport 2 20)).
  - apply holds_written.
  - reflexivity.
Defined.

(** What is removed cannot be read back, and removing it once more changes
    nothing. *)
Theorem removeReport_then_getReport (ls : Storage) (l : list CachedReport)
    (uploadId' : Z) :
  holds ls l → full ls = false →
  getReport uploadId' (exec (removeReport uploadId') ls) =
    (Return None, exec (removeReport uploadId') ls) ∧
  exec (removeReport uploadId') (exec (removeReport uploadId') ls) =
    exec (removeReport uploadId') ls.
Proof.
  intros Hl Hfull. unfold exec.
  rewrite (removeReport_run uploadId' l ls Hl), Hfull. simpl.
  set (kept := filter (λ r, uploadId r ≠ uploadId') l).
  pose proof (holds_written kept ls) as Hkept. split.
  - rewrite (getReport_run _ _ _ Hkept). f_equal. f_equal.
    apply find_None. intros r Hr%list_elem_of_filter. by destruct Hr.
  - rewrite (removeReport_run uploadId' kept _ Hkept). simpl.
    unfold written. simpl. rewrite Hfull. f_equal.
    rewrite insert_insert_eq. do 3 f_equal.
    apply filter_all. intros r Hr%list_elem_of_filter. by destruct Hr.
Qed.

Lemma removeReport_then_getReport_witness :
  let ls := written [sampleReport 1 10; sampleReport 2 20] emptyStore in
  getReport 2 (exec (removeReport 2) ls) =
    (Return None, exec (removeReport 2) ls).
Proof.
  intros ls.
  apply (removeReport_then_getReport ls
           [sampleReport 1 10; sampleReport 2 20] 2).
  - apply holds_written.
  - reflexivity.
Defined.

(** When the quota of the store is used up, the error of [setItem] is
    swallowed: [addReport] and [removeReport] return as if nothing had
    happened, the store is what it was, and the report is not cached. *)
Theorem full_store_keeps_contents (ls : Storage) (l : list CachedReport) :
  holds ls l → full ls = true →
  (∀ report, addReport report ls = (Return (), ls)) ∧
  (∀ uploadId', removeReport uploadId' ls = (Return (), ls)) ∧
  (∀ report, uploadId report ∉ uploadId <$> l →
     getReport (uploadId report) (exec (addReport report) ls) =
       (Return None, exec (addReport report) ls)).
Proof.
  intros Hl Hfull. split; [|split].
  - intros report. by rewrite (addReport_run report l ls Hl), Hfull.
  - intros uploadId'. by rewrite (removeReport_run uploadId' l ls Hl), Hfull.
  - intros report Hout. unfold exec.
    rewrite (addReport_run report l ls Hl), Hfull. simpl.
    rewrite (getReport_run _ _ _ Hl). f_equal. f_equal.
    apply find_None. intros r Hr Heq. apply Hout. rewrite <- Heq.
    by apply list_elem_of_fmap_2.
Qed.

Lemma full_store_keeps_contents_witness :
  let ls := {| items := {[ CACHE_KEY := Json (VArray [sampleReport 1 10]) ]};
               full := true |} in
  addReport (sampleReport 2 20) ls = (Return (), ls).
Proof.
  intros ls.
  apply (full_store_keeps_contents ls [sampleReport 1 10]); reflexivity.
Defined.

(** When the stored text is JSON but no array, nothing repairs it short of
    [clearCache]: [addReport], [removeReport] and [getReport] throw a
    [TypeError] and leave the store as it is; [getRecentReports] throws as
    well, unless the value is a string, of which it returns a slice. *)
Theorem foreign_value_throws (ls : Storage) (v : JsValue) :
  items ls !! CACHE_KEY = Some (Json v) → (∀ l, v ≠ VArray l) →
  (∀ report, addReport report ls = (Throw TypeError, ls)) ∧
  (∀ uploadId', removeReport uploadId' ls = (Throw TypeError, ls)) ∧
  (∀ uploadId', getReport uploadId' ls = (Throw TypeError, ls)) ∧
  (∀ limit,
     match v with
     | VString s =>
         getRecentReports limit ls =
           (Return (VString (sliceString 0 (default 10%Z limit) s)), ls)
     | _ => getRecentReports limit ls = (Throw TypeError, ls)
     end).
Proof.
  intros Hitem Hv.
  assert (cachedValue ls = v) as Hcached
    by (unfold cachedValue; by rewrite Hitem).
  split; [|split; [|split]]; intros x.
  - unfold addReport, bind. rewrite getCachedReports_run, Hcached.
    destruct v; try done. by destruct (Hv elements).
  - unfold removeReport, bind. rewrite getCachedReports_run, Hcached.
    destruct v; try done. by destruct (Hv elements).
  - unfold getReport, bind. rewrite getCachedReports_run, Hcached.
    destruct v; try done. by destruct (Hv elements).
  - unfold getRecentReports, bind. rewrite getCachedReports_run, Hcached.
    destruct v; try done. by destruct (Hv elements).
Qed.

Lemma foreign_value_throws_witness :
  let ls := {| items := {[ CACHE_KEY := Json (VString "日报系统") ]};
               full := false |} in
  addReport (sampleReport 1 10) ls = (Throw TypeError, ls) ∧
  getRecentReports (Some 2%Z) ls = (Return (VString "日报"), ls).
Proof.
  intros ls.
  destruct (foreign_value_throws ls (VString "日报系统"))
    as (Hadd & _ & _ & Hrecent); [reflexivity|done|].
  split; [apply Hadd|exact (Hrecent (Some 2%Z))].
Defined.




Lemma find_snoc_False {A} (P : A → Prop) `{!∀ x, Decision (P x)} l x :
  ¬ P x → find P (l ++ [x]) = find P l.
Proof.
  intros Hx. induction l as [|y l IH]; simpl.
  - by rewrite find_cons_False.
  - destruct (decide (P y)).
    + by rewrite !find_cons_True.
    + by rewrite !find_cons_False.
Qed.

(** Adding a report does not disturb the other entries as long as nothing
    is evicted, that is when the upload id is already cached or the cache
    is not full: [getReport] for any other upload id answers as before. *)
Theorem addReport_keeps_other_reports (ls : Storage) (l : list CachedReport)
    (report : CachedReport) (uploadId' : Z) :
  holds ls l → full ls = false →
  uploadId' ≠ uploadId report →
  uploadId report ∈ uploadId <$> l ∨ length l < MAX_CACHE_SIZE →
  (getReport uploadId' (exec (addReport report) ls)).1 =
    (getReport uploadId' ls).1.
Proof.
  intros Hl Hfull Hne Hroom. unfold exec.
  rewrite (addReport_run report l ls Hl), Hfull. simpl.
  rewrite (getReport_run _ _ _ (holds_written _ ls)).
  rewrite (getReport_run _ _ _ Hl). simpl. f_equal.
  destruct (decide (uploadId report ∈ uploadId <$> l)) as [Hin|Hout].
  - destruct (added_present _ _ Hin) as (i & old & Hi & Hold & _ & ->).
    apply (find_insert_other _ l i old); [done|congruence|congruence].
  - destruct Hroom as [?|Hlt]; [done|].
    rewrite (added_absent _ _ Hout), take_ge by (simpl; lia).
    apply find_cons_False. congruence.
Qed.

Lemma addReport_keeps_other_reports_witness :
  let ls := written [sampleReport 1 10; sampleReport 2 20] emptyStore in
  (getReport 1 (exec (addReport (sampleReport 2 25)) ls)).1 =
    (getReport 1 ls).1.
Proof.
  intros ls.
  apply (addReport_keeps_other_reports ls
           [sampleReport 1 10; sampleReport 2 20]).
  - apply holds_written.
  - reflexivity.
  - done.
  - left. apply (bool_decide_unpack _). vm_compute. exact I.
Defined.

(** In a cache that holds 50 reports with distinct upload ids, in a store
    that accepts the write, adding a report with a new id forgets the last
    entry of the cache, and only that one: [getReport] no longer finds it,
    and answers as before for every other cached id. *)
Theorem addReport_forgets_last (ls : Storage) (l : list CachedReport)
    (report oldest : CachedReport) :
  holds ls l → full ls = false →
  NoDup (uploadId <$> l) → length l = MAX_CACHE_SIZE →
  uploadId report ∉ uploadId <$> l → last l = Some oldest →
  getReport (uploadId oldest) (exec (addReport report) ls) =
    (Return None, exec (addReport report) ls) ∧
  (∀ uploadId', uploadId' ≠ uploadId oldest → uploadId' ≠ uploadId report →
     (getReport uploadId' (exec (addReport report) ls)).1 =
       (getReport uploadId' ls).1).
Proof.
  intros Hl Hfull Hnodup Hlen Hout Hlast.
  apply last_Some in Hlast as [kept ->].
  rewrite length_app in Hlen. simpl in Hlen.
  rewrite fmap_app in Hnodup, Hout. simpl in Hnodup, Hout.
  apply NoDup_app in Hnodup as (_ & Hdisjoint & _).
  unfold exec. rewrite (addReport_run report _ ls Hl), Hfull. simpl.
  rewrite (getReport_run _ _ _ (holds_written _ ls)).
  assert (added report (kept ++ [oldest]) = report :: kept) as ->.
  { rewrite added_absent by (by rewrite fmap_app).
    rewrite MAX_CACHE_SIZE_S in *. simpl.
    rewrite take_app_length' by lia. done. }
  split.
  - f_equal. f_equal. apply find_None.
    intros r [->|Hr]%elem_of_cons Heq.
    + apply Hout. rewrite Heq. apply elem_of_app. right. by left.
    + apply (Hdisjoint (uploadId r)); [by apply list_elem_of_fmap_2|].
      rewrite Heq. by left.
  - intros uploadId' Hold Hnew.
    rewrite (getReport_run _ _ _ Hl).
    rewrite (getReport_run _ _ _ (holds_written _ ls)). cbn [fst]. f_equal.
    rewrite find_cons_False by congruence.
    by rewrite find_snoc_False by congruence.
Qed.

Lemma addReport_forgets_last_witness :
  let l := reverse (sampleReports 50) in
  let ls := written l emptyStore in
  getReport 1 (exec (addReport (sampleReport 51 0)) ls) =
    (Return None, exec (addReport (sampleReport 51 0)) ls).
Proof.
  intros l ls.
  apply (addReport_forgets_last ls l (sampleReport 51 0) (sampleReport 1 0)).
  - apply holds_written.
  - reflexivity.
  - apply (bool_decide_unpack _). vm_compute. exact I.
  - reflexivity.
  - apply (bool_decide_unpack _). vm_compute. exact I.
  - reflexivity.
Defined.

Lemma NoDup_ids_added report l :
  NoDup (uploadId <$> l) → NoDup (uploadId <$> added report l).
Proof.
  intros Hnodup.
  destruct (decide (uploadId report ∈ uploadId <$> l)) as [Hin|Hout].
  - destruct (added_present _ _ Hin) as (i & old & Hi & Hold & _ & ->).
    by rewrite (ids_insert_same _ _ _ _ Hi Hold).
  - rewrite (added_absent _ _ Hout), fmap_take, fmap_cons.
    eapply sublist_NoDup; [|apply sublist_take]. by apply NoDup_cons.
Qed.

Lemma NoDup_ids_filter (P : CachedReport → Prop) `{!∀ x, Decision (P x)} l :
  NoDup (uploadId <$> l) → NoDup (uploadId <$> filter P l).
Proof.
  intros Hnodup. eapply sublist_NoDup; [exact Hnodup|].
  apply fmap_sublist, sublist_filter.
Qed.

Lemma perform_run op l ls :
  holds ls l →
  ∃ l', perform op ls = (Return (), exec (perform op) ls) ∧
        holds (exec (perform op) ls) l' ∧
        (NoDup (uploadId <$> l) → NoDup (uploadId <$> l')) ∧
        (length l ≤ MAX_CACHE_SIZE → length l' ≤ MAX_CACHE_SIZE).
Proof.
  intros Hl. destruct op as [report|uploadId'|]; unfold exec; simpl.
  - rewrite (addReport_run report l ls Hl). simpl.
    destruct (full ls); [by exists l|].
    exists (added report l). split; [done|]. split; [apply holds_written|].
    split; [apply NoDup_ids_added|apply length_added_le].
  - rewrite (removeReport_run uploadId' l ls Hl). simpl.
    destruct (full ls); [by exists l|].
    eexists. split; [done|]. split; [apply holds_written|].
    split; [by apply NoDup_ids_filter|].
    intros Hle. pose proof (length_filter (λ r, uploadId r ≠ uploadId') l).
    lia.
  - exists []. split; [done|]. split; [apply holds_cleared|].
    split; [intros _; constructor|simpl; lia].
Qed.

(** Whatever the pages do to the cache, in whatever order and whether or
    not the store takes the writes, a cache that holds at most 50 reports
    with distinct upload ids stays so: every operation returns, no upload
    id comes to be cached twice, and the capacity is never exceeded. *)
Theorem cache_stays_well_formed (ls : Storage) (l : list CachedReport)
    (ops : list Op) :
  holds ls l → NoDup (uploadId <$> l) → length l ≤ MAX_CACHE_SIZE →
  returns (performAll ops) ls ∧
  ∃ l', holds (exec (performAll ops) ls) l' ∧
        NoDup (uploadId <$> l') ∧ length l' ≤ MAX_CACHE_SIZE.
Proof.
  revert ls l. induction ops as [|op ops IH]; intros ls l Hl Hnodup Hle.
  - split; [by exists ()|]. by exists l.
  - destruct (perform_run op l ls Hl) as (l' & Hrun & Hl' & Hnodup' & Hle').
    unfold returns, exec in *. simpl. unfold bind. rewrite Hrun.
    apply (IH _ l'); auto.
Qed.

Lemma cache_stays_well_formed_witness :
  let ops := [ Add (sampleReport 1 10); Add (sampleReport 2 20);
               Add (sampleReport 1 15); Remove 2; Clear;
               Add (sampleReport 3 30) ] in
  ∃ l', holds (exec (performAll ops) emptyStore) l' ∧
        NoDup (uploadId <$> l') ∧ length l' ≤ MAX_CACHE_SIZE.
Proof.
  intros ops.
  apply (cache_stays_well_formed emptyStore [] ops).
  - reflexivity.
  - constructor.
  - simpl. lia.
Defined.

Lemma slice_0_neg {A} (limit : Z) (l : list A) :
  (limit < 0)%Z → slice 0 limit l = take (length l - Z.to_nat (- limit)) l.
Proof.
  intros Hlimit. unfold slice, relativeIndex.
  destruct (Z.ltb_spec 0 0); [lia|].
  destruct (Z.ltb_spec limit 0); [|lia].
  rewrite (Z.min_l 0) by lia. rewrite Z.sub_0_r. simpl. f_equal. lia.
Qed.

(** The limit of [getRecentReports] at its edges: a limit of at least the
    size of the cache returns the whole cache, the limit 0 returns
    nothing, and a negative limit returns the cache without its last
    [-limit] entries. *)
Theorem getRecentReports_limits (ls : Storage) (l : list CachedReport)
    (limit : Z) :
  holds ls l →
  ((Z.of_nat (length l) ≤ limit)%Z →
   getRecentReports (Some limit) ls = (Return (VArray l), ls)) ∧
  (limit = 0%Z →
   getRecentReports (Some limit) ls = (Return (VArray []), ls)) ∧
  ((limit < 0)%Z →
   getRecentReports (Some limit) ls =
     (Return (VArray (take (length l - Z.to_nat (- limit)) l)), ls)).
Proof.
  intros Hl. rewrite (getRecentReports_run (Some limit) l ls Hl). simpl.
  split; [|split].
  - intros Hle. rewrite slice_0_nonneg by lia. by rewrite take_ge by lia.
  - intros ->. by rewrite slice_0_nonneg.
  - intros Hneg. by rewrite slice_0_neg.
Qed.

Lemma getRecentReports_limits_witness :
  let l := [sampleReport 3 30; sampleReport 2 20; sampleReport 1 10] in
  let ls := written l emptyStore in
  getRecentReports (Some (-2)%Z) ls = (Return (VArray [sampleReport 3 30]), ls).
Proof.
  intros l ls.
  destruct (getRecentReports_limits ls l (-2) (holds_written l emptyStore))
    as (_ & _ & Hneg).
  rewrite Hneg by lia. reflexivity.
Defined.

End CacheMore.

(** ** More on the per-step display state *)

Module StatusMore.
Import Js ProcessingStatus StatusSpec StatusFacts.

(** When the current step is one of the five steps, the panel shows the
    steps before it as completed and the steps after it as pending; the
    step itself is shown as being processed with the status [processing],
    as failed with the status [failed], and as completed with the status
    [completed], which leaves the later steps pending (there are none
    after the last step).  For the current step [completed] with the
    status [completed] all five steps are shown as completed. *)
Theorem statuses_at_step (k : nat) (step : Step) :
  steps !! k = Some step →
  statuses (id step) "processing" =
    replicate k completed ++ [processing] ++ replicate (4 - k) pending ∧
  statuses (id step) "failed" =
    replicate k completed ++ [error] ++ replicate (4 - k) pending ∧
  statuses (id step) "completed" =
    replicate (S k) completed ++ replicate (4 - k) pending ∧
  statuses "completed" "completed" = replicate 5 completed.
Proof.
  intros Hk. do 5 (destruct k as [|k]; [by injection Hk as <-|]). done.
Qed.

Lemma statuses_at_step_witness :
  statuses "dedupe" "processing" =
    [completed; completed; processing; pending; pending] ∧
  statuses "dedupe" "failed" =
    [completed; completed; error; pending; pending] ∧
  statuses "dedupe" "completed" =
    [completed; completed; completed; pending; pending] ∧
  statuses "completed" "completed" =
    [completed; completed; completed; completed; completed].
Proof.
  apply (statuses_at_step 2 {| id := "dedupe"; title := "数据去重";
                               description := "去除重复数据" |}).
  reflexivity.
Defined.

Lemma findIndex_bounds stepId :
  (-1 ≤ findIndex (λ s, id s = stepId) steps ≤ 4)%Z.
Proof.
  unfold findIndex.
  destruct (list_find _ steps) as [[i s]|] eqn:Hfind; [|lia].
  apply list_find_Some in Hfind as (Hi%lookup_lt_Some & _). simpl in Hi. lia.
Qed.

Lemma findIndex_step k step :
  steps !! k = Some step →
  findIndex (λ s, id s = id step) steps = Z.of_nat k.
Proof.
  intros Hk. do 5 (destruct k as [|k]; [by injection Hk as <-|]). done.
Qed.

Lemma getStepStatus_unknown (currentStep status : string) k step :
  currentStep ∉ id <$> steps →
  ¬ (currentStep = "error" ∧ status = "failed") →
  ¬ (currentStep = "completed" ∧ status = "completed") →
  steps !! k = Some step →
  getStepStatus currentStep status (id step) = pending.
Proof.
  intros Hout Herror Hcompleted Hk. unfold getStepStatus.
  rewrite (findIndex_steps_other _ Hout), (findIndex_step k step Hk).
  repeat case_decide; try done; intuition lia.
Qed.

Ltac all_pending :=
  unfold statuses; rewrite <- list_fmap_compose;
  change (replicate 5 pending) with ((λ _ : Step, pending) <$> steps);
  apply list_fmap_ext; intros ? ? ?; simpl;
  eapply getStepStatus_unknown; [done| | |done]; by intros [? ?].

(** A current step that is none of the five steps, as [idle] before an
    upload, leaves every step pending, except for the two sentinels that the
    function knows: [error] with the status [failed], and [completed] with
    the status [completed]. *)
Theorem statuses_unknown_step (currentStep status : string) :
  currentStep ∉ id <$> steps →
  ¬ (currentStep = "error" ∧ status = "failed") →
  ¬ (currentStep = "completed" ∧ status = "completed") →
  statuses currentStep status = replicate 5 pending.
Proof.
  intros Hout Herror Hcompleted.
  unfold statuses. rewrite <- list_fmap_compose.
  change (replicate 5 pending) with ((λ _ : Step, pending) <$> steps).
  apply list_fmap_ext. intros k step Hk. simpl.
  by eapply getStepStatus_unknown.
Qed.

Lemma statuses_unknown_step_witness :
  statuses "idle" "idle" = [pending; pending; pending; pending; pending].
Proof.
  apply (statuses_unknown_step "idle" "idle").
  - apply (bool_decide_unpack _). vm_compute. exact I.
  - intros [? _]. done.
  - intros [? _]. done.
Defined.

Lemma getStepStatus_other_status currentStep status stepId :
  status ≠ "failed" → status ≠ "completed" → status ≠ "processing" →
  getStepStatus currentStep status stepId =
    if decide (findIndex (λ s, id s = stepId) steps <
               findIndex (λ s, id s = currentStep) steps)%Z
    then completed else pending.
Proof.
  intros Hfailed Hcompleted Hprocessing. unfold getStepStatus.
  repeat case_decide; try done; intuition lia.
Qed.

(** Whatever the current step and the status are, the panel shows
    completed steps first, then at most one step that is being processed
    or has failed, then pending steps only: never two steps in progress,
    never a pending step before a completed one. *)
Theorem statuses_wellShaped (currentStep status : string) :
  wellShaped (statuses currentStep status) = true.
Proof.
  destruct (decide (status = "failed")) as [->|Hfailed];
    [|destruct (decide (status = "completed")) as [->|Hcompleted];
      [|destruct (decide (status = "processing")) as [->|Hprocessing]]].
  - destruct (decide (currentStep ∈ id <$> steps)) as [Hin|Hout].
    + simpl in Hin. set_unfold in Hin.
      destruct Hin as [->|[->|[->|[->|[->|[]]]]]]; reflexivity.
    + destruct (decide (currentStep = "error")) as [->|Herror];
        [reflexivity|].
      replace (statuses currentStep _) with (replicate 5 pending);
        [done|symmetry; all_pending].
  - destruct (decide (currentStep ∈ id <$> steps)) as [Hin|Hout].
    + simpl in Hin. set_unfold in Hin.
      destruct Hin as [->|[->|[->|[->|[->|[]]]]]]; reflexivity.
    + destruct (decide (currentStep = "completed")) as [->|Hdone];
        [reflexivity|].
      replace (statuses currentStep _) with (replicate 5 pending);
        [done|symmetry; all_pending].
  - destruct (decide (currentStep ∈ id <$> steps)) as [Hin|Hout].
    + simpl in Hin. set_unfold in Hin.
      destruct Hin as [->|[->|[->|[->|[->|[]]]]]]; reflexivity.
    + replace (statuses currentStep _) with (replicate 5 pending);
        [done|symmetry; all_pending].
  - destruct (decide (currentStep ∈ id <$> steps)) as [Hin|Hout].
    + unfold statuses. simpl.
      rewrite !getStepStatus_other_status by done.
      simpl in Hin. set_unfold in Hin.
      destruct Hin as [->|[->|[->|[->|[->|[]]]]]]; reflexivity.
    + replace (statuses currentStep _) with (replicate 5 pending);
        [done|symmetry; all_pending].
Qed.

End StatusMore.

(** ** The flow of an upload *)

Module AppMore.
Import Js App AppSpec AppFlow AppStream AppFlowSpec AppFacts.
Import ProcessingStatus StatusSpec.

Lemma statsRequested_handleProgress data st :
  statsRequested (handleProgress data st) =
    statsRequested st ++ completions [data].
Proof.
  destruct data as [|d| | | |]; simpl; try by rewrite app_nil_r.
  destruct (upload_id d) as [id|]; simpl; [|by rewrite app_nil_r].
  destruct (_ && _); simpl; [done|by rewrite app_nil_r].
Qed.

Lemma completions_cons data stream :
  completions (data :: stream) = completions [data] ++ completions stream.
Proof.
  destruct data as [|d| | | |]; simpl; try done.
  destruct (upload_id d) as [id|]; [|done]. by destruct (_ && _).
Qed.

Lemma completions_app stream later :
  completions (stream ++ later) = completions stream ++ completions later.
Proof.
  induction stream as [|data stream IH]; [done|].
  rewrite <- app_comm_cons, (completions_cons data), (completions_cons data stream).
  by rewrite IH, app_assoc.
Qed.

Lemma statsRequested_dispatchAll events st :
  statsRequested (dispatchAll events st) =
    statsRequested st ++ completions (deliveredInTask events st).
Proof.
  revert st. induction events as [|data events IH]; intros st.
  { simpl. by rewrite app_nil_r. }
  rewrite dispatchAll_cons. simpl. unfold dispatch.
  destruct (eventSourceRef st) as [source|] eqn:Hsource.
  - rewrite IH, statsRequested_handleProgress.
    by rewrite (completions_cons data (deliveredInTask _ _)), app_assoc.
  - rewrite dispatchAll_closed by done. by rewrite app_nil_r.
Qed.

Lemma useEffectConnection_keeps st :
  statsRequested (useEffectConnection st) = statsRequested st ∧
  processingState (useEffectConnection st) = processingState st.
Proof.
  unfold useEffectConnection. simpl.
  destruct (processingId (processingState st)); [|done].
  by destruct (_ && _).
Qed.

Lemma completions_upToFirst status stream :
  status ≠ "completed" →
  length (completions (upToFirst (ends status) stream)) ≤ 1.
Proof.
  intros Hstatus. induction stream as [|data stream IH]; [simpl; lia|].
  cbn [upToFirst]. rewrite completions_cons, length_app.
  destruct (decide (ends status data)) as [Hends|Hends].
  - destruct data as [|d| | | |]; simpl; try lia.
    destruct (upload_id d); [|simpl; lia]. destruct (_ && _); simpl; lia.
  - assert (completions [data] = []) as ->; [|simpl; lia].
    destruct data as [|d| | | |]; try done. simpl in *.
    destruct (upload_id d); [|done].
    destruct (String.eqb_spec (data_status d) "completed") as [Heq|Hne];
      [|done].
    destruct (decide (data_status d = status)) as [Hsame|Hother];
      [congruence|tauto].
Qed.

(** In whatever tasks a stream is dispatched, the statistics are requested
    for the completed jobs and for nothing else: the requests made are,
    in order, the upload ids (other than zero) of the [progress] events
    with the status [completed] that reached the handler.  A job that
    fails, or whose upload id is zero, is never on the way to the cache.
    The processing id does not change along the stream.  When React
    renders after every event, and the job was not shown as completed
    before, the stream makes one request at most: the clean-up of the
    effect closes the source after the first event that reports the job
    completed. *)
Theorem stats_requested_for_completions (tasks : list (list SSEData))
    (st : AppState) :
  statsRequested (stateAfter tasks st) =
    statsRequested st ++ completions (deliveredIn tasks st) ∧
  processingId (processingState (stateAfter tasks st)) =
    processingId (processingState st) ∧
  (status (processingState st) ≠ "completed" →
   length (completions (delivered (concat tasks) st)) ≤ 1).
Proof.
  split; [|split].
  - revert st. induction tasks as [|events tasks IH]; intros st.
    { simpl. by rewrite app_nil_r. }
    cbn [stateAfter deliveredIn]. rewrite completions_app.
    destruct (runsAgain st (dispatchAll events st)).
    + destruct (useEffectConnection_keeps (dispatchAll events st)) as [-> _].
      by rewrite statsRequested_dispatchAll, app_nil_r.
    + by rewrite IH, statsRequested_dispatchAll, app_assoc.
  - revert st. induction tasks as [|events tasks IH]; intros st; [done|].
    cbn [stateAfter].
    destruct (runsAgain st (dispatchAll events st)).
    + destruct (useEffectConnection_keeps (dispatchAll events st)) as [_ ->].
      apply processingId_dispatchAll.
    + rewrite IH. apply processingId_dispatchAll.
  - intros Hstatus.
    destruct (eventSourceRef st) as [source|] eqn:Hsource.
    + rewrite delivered_upToFirst by (by exists source).
      by apply completions_upToFirst.
    + unfold delivered. rewrite deliveredIn_closed by done. simpl. lia.
Qed.

Lemma stats_requested_for_completions_witness :
  length (completions
            (delivered
               [ progressEvent (progressData "report" "completed" 100);
                 progressEvent (progressData "report" "completed" 100) ]
               running)) ≤ 1.
Proof.
  apply (stats_requested_for_completions
           (separately
              [ progressEvent (progressData "report" "completed" 100);
                progressEvent (progressData "report" "completed" 100) ])
           running).
  discriminate.
Defined.

(** However the stream fails the job (a [timeout] or [error] event, a
    message that cannot be read, an error of the connection), the stream
    is closed, the progress stays, and the panel shows the step that was
    current as failed, the steps before it as completed and the later
    ones as pending. *)
Theorem failure_marks_current_step (failure : Failure) (st : AppState)
    (k : nat) (step : Step) :
  steps !! k = Some step →
  currentStep (processingState st) = id step →
  eventSourceRef (fail failure st) = None ∧
  progress (processingState (fail failure st)) =
    progress (processingState st) ∧
  statuses (currentStep (processingState (fail failure st)))
           (status (processingState (fail failure st))) =
    replicate k completed ++ [error] ++ replicate (4 - k) pending.
Proof.
  intros Hk Hcurrent.
  assert (currentStep (processingState (fail failure st)) = id step ∧
          status (processingState (fail failure st)) = "failed") as [-> ->]
    by (by destruct failure as [| |[]|]).
  split; [by destruct failure as [| |[]|]|].
  split; [by destruct failure as [| |[]|]|].
  do 5 (destruct k as [|k]; [by injection Hk as <-|]). done.
Qed.

Lemma failure_marks_current_step_witness :
  statuses (currentStep (processingState (fail byConnection running)))
           (status (processingState (fail byConnection running))) =
    [completed; error; pending; pending; pending].
Proof.
  apply (failure_marks_current_step byConnection running 1
           {| id := "clean"; title := "数据清洗";
              description := "清理和标准化数据" |});
    reflexivity.
Defined.

Lemma fireAll_closed events st :
  eventSourceRef st = None → fireAll events st = st.
Proof.
  intros Hclosed. unfold fireAll.
  induction events as [|event events IH]; [done|].
  simpl. unfold fire at 2. by rewrite Hclosed.
Qed.

(** An upload that fails, whatever was shown before: the job is shown as
    failed at the first step with no progress, the panel has that step
    failed and the others pending, the message is that of the error (the
    [detail] of the response when it has one), no stream is opened and no
    report is ready. *)
Theorem failed_upload_shows_first_step (p : Page) (file : FileUpload.File)
    (fetched : Fetched UploadResponse) (thrown : Thrown) :
  uploadFile fetched = inr thrown →
  let p' := handleFileUploadSettled (uploadFile fetched)
                                    (handleFileUpload file p) in
  let shown := processingState (app p') in
  status shown = "failed" ∧ progress shown = 0%Z ∧
  processingId shown = None ∧
  statuses (currentStep shown) (status shown) =
    [error; pending; pending; pending; pending] ∧
  errorMessage shown =
    Some match thrown with
         | errorObject message => message
         | otherValue => "文件上传失败，请检查文件格式或网络连接"
         end ∧
  (∀ detail, fetched = fetchedError detail →
     errorMessage shown = Some (orElse detail "文件上传失败")) ∧
  eventSourceRef (useEffectConnection (app p')) = None ∧
  reportReady p' = false.
Proof.
  intros Hthrown p' shown. subst p' shown. rewrite Hthrown. simpl.
  repeat (split; [reflexivity|]).
  split; [|done].
  intros detail ->. simpl in Hthrown. by injection Hthrown as <-.
Qed.

Lemma failed_upload_shows_first_step_witness :
  let p' := handleFileUploadSettled
              (uploadFile (fetchedError (Some "仅支持CSV文件")))
              (handleFileUpload
                 {| FileUpload.name := "data.csv";
                    FileUpload.type := "text/csv";
                    FileUpload.size := 1024 |} idlePage) in
  errorMessage (processingState (app p')) = Some "仅支持CSV文件".
Proof.
  intros p'.
  destruct (failed_upload_shows_first_step idlePage
              {| FileUpload.name := "data.csv"; FileUpload.type := "text/csv";
                 FileUpload.size := 1024 |}
              (fetchedError (Some "仅支持CSV文件"))
              (errorObject "仅支持CSV文件") eq_refl)
    as (_ & _ & _ & _ & Hmessage & _).
  exact Hmessage.
Defined.

(** An upload that succeeds, whatever was shown before: the job is shown
    as being processed at the first step with progress 10.  The effect
    opens the stream of the processing id that the response carries; when
    the response carries none, or zero, no stream is opened and nothing
    that a stream could carry will ever change what is shown. *)
Theorem uploaded_file_opens_stream (p : Page) (file : FileUpload.File)
    (response : UploadResponse) :
  let p' := handleFileUploadSettled (inl response)
                                    (handleFileUpload file p) in
  let st := useEffectConnection (app p') in
  statuses (currentStep (processingState st)) (status (processingState st)) =
    [processing; pending; pending; pending; pending] ∧
  progress (processingState st) = 10%Z ∧
  uploadId (processingState st) = Some (response_upload_id response) ∧
  (∀ id, response_processing_id response = Some id → id ≠ 0%Z →
     eventSourceRef st = Some id) ∧
  (response_processing_id response = None ∨
   response_processing_id response = Some 0%Z →
   eventSourceRef st = None ∧ ∀ events, fireAll events st = st).
Proof.
  intros p' st. subst p' st. unfold useEffectConnection. simpl.
  destruct (response_processing_id response) as [id|] eqn:Hid; simpl.
  - unfold truthy. destruct (Z.eqb_spec id 0) as [->|Hne]; simpl.
    + repeat (split; [reflexivity|]). split; [by intros ? [= <-]|].
      intros _. split; [done|]. intros events. by apply fireAll_closed.
    + repeat (split; [reflexivity|]). split; [by intros ? [= <-]|].
      intros [?|[=]]; done.
  - repeat (split; [reflexivity|]). split; [done|].
    intros _. split; [done|]. intros events. by apply fireAll_closed.
Qed.

Lemma uploaded_file_opens_stream_witness :
  let response := {| response_upload_id := 3; response_processing_id := Some 7%Z;
                     response_message := "文件上传成功" |} in
  let p' := handleFileUploadSettled (inl response)
              (handleFileUpload
                 {| FileUpload.name := "data.csv";
                    FileUpload.type := "text/csv";
                    FileUpload.size := 1024 |} idlePage) in
  eventSourceRef (useEffectConnection (app p')) = Some 7%Z.
Proof.
  intros response p'.
  destruct (uploaded_file_opens_stream idlePage
              {| FileUpload.name := "data.csv"; FileUpload.type := "text/csv";
                 FileUpload.size := 1024 |} response)
    as (_ & _ & _ & Hopen & _).
  apply Hopen; [reflexivity|done].
Defined.

(** The download follows the upload id that is shown.  Once a new upload
    has begun, the report of the previous one can no longer be downloaded
    from the page; after the response of the server it is the new upload
    that is downloaded, unless its id is zero, in which case nothing
    is. *)
Theorem download_follows_latest_upload (p : Page) (file : FileUpload.File)
    (response : UploadResponse) :
  handleDownloadReport (handleFileUpload file p) = handleFileUpload file p ∧
  downloads (handleDownloadReport
               (handleFileUploadSettled (inl response)
                  (handleFileUpload file p))) =
    if decide (response_upload_id response = 0%Z) then downloads p
    else downloads p ++ [response_upload_id response].
Proof.
  split; [reflexivity|].
  unfold handleDownloadReport. simpl. unfold truthy.
  destruct (Z.eqb_spec (response_upload_id response) 0) as [Heq|Hne].
  - by rewrite decide_True.
  - by rewrite decide_False.
Qed.

Lemma orElse_nonempty fileName fallback :
  fallback ≠ "" → orElse (Some fileName) fallback ≠ "".
Proof.
  intros Hfallback. simpl.
  destruct (String.eqb_spec fileName ""); done.
Qed.

(** When the statistics of a completed upload arrive, the report is marked
    ready and the statistics are shown, whether or not the cache can take
    the report.  When it can, the cache holds for that upload id a report
    with these statistics and a file name that is not empty, and a job
    that was cached before is replaced, not cached twice. *)
Theorem completed_job_is_cached (clock : Clock) (fileName : string)
    (fileSize upload_id : Z) (stats : DataStatsResponse) (p : Page)
    (l : list CacheService.CachedReport) :
  let p' := afterDataStats clock fileName fileSize upload_id (inl stats) p in
  reportReady p' = true ∧ dataStats p' = statsDataOf stats ∧
  app p' = app p ∧
  (CacheSpec.holds (localStorage p) l →
   CacheService.full (localStorage p) = false →
   ∃ report l',
     CacheService.getReport upload_id (localStorage p') =
       (Return (Some report), localStorage p') ∧
     CacheService.uploadId report = upload_id ∧
     CacheService.stats report = statsDataOf stats ∧
     CacheService.filename report ≠ "" ∧
     CacheSpec.holds (localStorage p') l' ∧
     (upload_id ∈ CacheService.uploadId <$> l → length l' = length l)).
Proof.
  intros p'. subst p'. simpl. repeat (split; [reflexivity|]).
  intros Hl Hfull.
  set (report := cachedReportOf clock upload_id stats fileName fileSize).
  rewrite (CacheFacts.addReport_run report l _ Hl), Hfull. simpl.
  exists report, (CacheSpec.added report l).
  pose proof (CacheFacts.holds_written (CacheSpec.added report l)
                (localStorage p)) as Hl'.
  split.
  { rewrite (CacheFacts.getReport_run _ _ _ Hl').
    pose proof (CacheMore.find_added report l) as Hfind.
    change (CacheService.uploadId report) with upload_id in Hfind.
    by rewrite Hfind. }
  split; [done|]. split; [done|].
  split; [by apply orElse_nonempty|]. split; [done|].
  intros Hin.
  destruct (CacheFacts.added_present report l Hin) as (i & old & _ & _ & _ & ->).
  apply length_insert.
Qed.

Lemma completed_job_is_cached_witness :
  let p' := afterDataStats sampleClock "data.csv" 1024 3 (inl sampleStats)
                           idlePage in
  ∃ report l',
    CacheService.getReport 3 (localStorage p') =
      (Return (Some report), localStorage p') ∧
    CacheService.uploadId report = 3%Z ∧
    CacheService.stats report = statsDataOf sampleStats ∧
    CacheService.filename report ≠ "" ∧
    CacheSpec.holds (localStorage p') l' ∧
    (3%Z ∈ CacheService.uploadId <$> [] → length l' = length (@nil CacheService.CachedReport)).
Proof.
  intros p'.
  destruct (completed_job_is_cached sampleClock "data.csv" 1024 3 sampleStats
              idlePage []) as (_ & _ & _ & Hcached).
  apply Hcached; reflexivity.
Defined.

End AppMore.

(** ** More on the upload component *)

Module UploadMore.
Import Js FileUpload UploadSpec UploadFlowSpec.

Lemma run_uploads actions st :
  ∃ sent,
    uploaded (run actions st) = uploaded st ++ sent ∧
    sent `sublist_of` selection st ++ accepted actions ∧
    length sent ≤ confirmations actions ∧
    length (alerts (run actions st)) =
      length (alerts st) + rejections actions.
Proof.
  revert st. induction actions as [|a actions IH]; intros st.
  { exists []. rewrite app_nil_r. split; [done|].
    split; [apply sublist_nil_l|]. simpl. split; lia. }
  change (run (a :: actions) st) with (run actions (step st a)).
  destruct (IH (step st a)) as (sent & Hsent & Hsub & Hlen & Halerts).
  destruct a as [[|file files]| |]; simpl in *.
  - exists sent. by rewrite Hsent, Halerts.
  - destruct (isCsv file) eqn:Hcsv; simpl in *.
    + exists sent. rewrite Hsent, Halerts. split; [done|].
      split; [|done]. by apply sublist_inserts_l.
    + exists sent. rewrite Hsent, Halerts, length_app. simpl.
      split; [done|]. split; [done|]. split; lia.
  - unfold handleConfirmUpload, selection in *.
    destruct (selectedFile st) as [file|] eqn:Hfile; simpl in *.
    + exists (file :: sent). rewrite Hsent, <- app_assoc, Halerts. simpl.
      split; [done|]. split; [by apply sublist_skip|]. split; lia.
    + exists sent. rewrite Hsent, Halerts, Hfile in *.
      split; [done|]. split; [done|]. split; lia.
  - exists sent. rewrite Hsent, Halerts. split; [done|].
    split; [by apply sublist_inserts_l|]. split; lia.
Qed.

(** Whatever the user does, the files handed to [onFileUpload] are files
    that were dropped and passed the check, each of them handed over at
    most once and in the order of the drops; there are no more of them
    than confirmations, and one alert was shown for each drop that was
    turned away. *)
Theorem uploads_follow_drops (actions : list Action) :
  uploaded (run actions initial) `sublist_of` accepted actions ∧
  length (uploaded (run actions initial)) ≤ confirmations actions ∧
  length (alerts (run actions initial)) = rejections actions.
Proof.
  destruct (run_uploads actions initial) as (sent & -> & Hsub & Hlen & ->).
  done.
Qed.

(** A confirmation hands over the file that was accepted last, and hands
    it over once: confirming again does nothing more, and neither does
    confirming after a cancellation. *)
Theorem confirm_uploads_last_accepted (st : State) (file : File)
    (others : list File) :
  isCsv file = true →
  uploaded (handleConfirmUpload (onDrop (file :: others) st)) =
    uploaded st ++ [file] ∧
  handleConfirmUpload (handleConfirmUpload (onDrop (file :: others) st)) =
    handleConfirmUpload (onDrop (file :: others) st) ∧
  handleConfirmUpload (handleCancelUpload (onDrop (file :: others) st)) =
    handleCancelUpload st.
Proof. intros Hcsv. simpl. by rewrite Hcsv. Qed.

Lemma confirm_uploads_last_accepted_witness :
  uploaded (handleConfirmUpload
              (onDrop [csvFile] (onDrop [csvFile; spreadsheet] initial))) =
    [csvFile].
Proof.
  apply (confirm_uploads_last_accepted (onDrop [csvFile; spreadsheet] initial)
           csvFile []).
  reflexivity.
Defined.

Lemma substring_all (s : string) : String.substring 0 (String.length s) s = s.
Proof. induction s as [|c s IH]; simpl; [done|by rewrite IH]. Qed.

Lemma substring_split (s : string) (k m : nat) :
  k + m = String.length s →
  s = String.substring 0 k s +:+ String.substring k m s.
Proof.
  revert k. induction s as [|c s IH]; intros k Hlen; simpl in Hlen.
  - assert (k = 0) as -> by lia. assert (m = 0) as -> by lia. done.
  - destruct k as [|k]; simpl.
    + assert (m = S (String.length s)) as -> by lia. simpl.
      by rewrite substring_all.
    + change (String c s =
              String c (String.substring 0 k s +:+ String.substring k m s)).
      f_equal. apply IH. lia.
Qed.

Lemma substring_append (pre suffix : string) :
  String.substring (String.length pre) (String.length suffix)
                   (pre +:+ suffix) = suffix.
Proof.
  induction pre as [|c pre IH]; simpl; [apply substring_all|done].
Qed.

Lemma length_append (s1 s2 : string) :
  String.length (s1 +:+ s2) = String.length s1 + String.length s2.
Proof. induction s1 as [|c s1 IH]; simpl; [done|by rewrite IH]. Qed.

Lemma endsWith_spec (s suffix : string) :
  endsWith s suffix = true ↔ ∃ stem, s = stem +:+ suffix.
Proof.
  unfold endsWith. split.
  - case_decide as Hle; [|done]. intros Heq%String.eqb_eq.
    pose proof (substring_split s (String.length s - String.length suffix)
                  (String.length suffix) ltac:(lia)) as Hs.
    rewrite Heq in Hs. by eexists.
  - intros [stem ->]. rewrite length_append.
    rewrite decide_True by lia.
    replace (String.length stem + String.length suffix - String.length suffix)
      with (String.length stem) by lia.
    rewrite substring_append. apply String.eqb_refl.
Qed.

(** The check on a dropped file: it passes exactly when the type of the
    file is [text/csv] or its name ends in [.csv], in lower case; the
    content and the size of the file are not looked at. *)
Theorem isCsv_by_type_or_extension (file : File) :
  isCsv file = true ↔
  type file = "text/csv" ∨ ∃ stem, name file = stem +:+ ".csv".
Proof.
  unfold isCsv. rewrite orb_true_iff, String.eqb_eq, endsWith_spec. done.
Qed.

End UploadMore.

(** ** The semi-automatic page: further properties *)

Module ManualMore.
Import Js ManualProcess ManualSpec.

Lemma run_snoc (engineMessage : string) (events : list Event)
    (event : Event) (st : State) :
  run engineMessage (events ++ [event]) st
  = step engineMessage (run engineMessage events st) event.
Proof. unfold run. by rewrite foldl_app. Qed.

Lemma property_truthy (engineMessage key : string) (v : Json) :
  falsy (Some v) = false →
  property engineMessage key v
  = inl (match v with JObject properties => valueOf key properties
         | _ => None end).
Proof. by destruct v. Qed.

(** The request is posted for exactly the pasted objects whose
    [structured_output] is an object with a truthy [domestic_sources] and
    a truthy [foreign_sources], and its body is these two values. *)
Theorem request_needs_both_sources (engineMessage : string)
    (input : Pasted) (domestic foreign : Json) :
  requestBody engineMessage input = inl (domestic, foreign) ↔
  ∃ properties sources,
    input = parsed (JObject properties) ∧
    valueOf "structured_output" properties = Some (JObject sources) ∧
    valueOf "domestic_sources" sources = Some domestic ∧
    valueOf "foreign_sources" sources = Some foreign ∧
    truthy domestic ∧ truthy foreign.
Proof.
  split.
  - destruct input as [| |v]; [done..|].
    destruct v as [| | | | |properties]; [done..|].
    unfold requestBody.
    change (property engineMessage "structured_output" (JObject properties))
      with (inl (B := Caught) (valueOf "structured_output" properties)).
    cbv beta iota.
    destruct (valueOf "structured_output" properties) as [so|] eqn:Hso;
      [|done].
    destruct (falsy (Some so)) eqn:Hfalsy; [done|].
    cbn [default from_option id].
    rewrite !property_truthy by done.
    destruct so as [| | | | |sources]; [done..|].
    destruct (valueOf "domestic_sources" sources) as [d|] eqn:Hd; [|done].
    destruct (valueOf "foreign_sources" sources) as [f|] eqn:Hf;
      [|by rewrite orb_true_r].
    destruct (falsy (Some d)) eqn:Hd'; [done|].
    destruct (falsy (Some f)) eqn:Hf'; [done|].
    cbn. intros [= <- <-]. by exists properties, sources.
  - intros (properties & sources & -> & Hso & Hd & Hf & Hd' & Hf').
    unfold requestBody.
    change (property engineMessage "structured_output" (JObject properties))
      with (inl (B := Caught) (valueOf "structured_output" properties)).
    cbv beta iota. rewrite Hso. cbn.
    fold (valueOf "domestic_sources" sources).
    fold (valueOf "foreign_sources" sources).
    rewrite Hd, Hf. unfold truthy in *. by rewrite Hd', Hf'.
Qed.

Lemma settles_snoc (events : list Event) (event : Event) :
  settles (events ++ [event])
  = settles events + (if isSettled event then 1 else 0).
Proof.
  unfold settles. rewrite filter_app, length_app. f_equal.
  by destruct event.
Qed.

Lemma pastes_snoc (events : list Event) (event : Event) :
  pastes (events ++ [event])
  = pastes events + (if isPaste event then 1 else 0).
Proof.
  unfold pastes. rewrite filter_app, length_app. f_equal.
  by destruct event as [[]| |].
Qed.

(** The handler of a click on the enabled button, by its two ways out. *)
Lemma step_clicked (engineMessage : string) (st : State) :
  disabled st = false →
  step engineMessage st clicked
  = match requestBody engineMessage (jsonInput st) with
    | inl body =>
        {| jsonInput := jsonInput st; isGenerating := true;
           error := ""; success := "";
           posted := posted st ++ [body]; saved := saved st |}
    | inr caught =>
        caughtAndFinally caught
          {| jsonInput := jsonInput st; isGenerating := true;
             error := ""; success := "";
             posted := posted st; saved := saved st |}
    end.
Proof.
  intros Hdisabled. unfold step. rewrite Hdisabled.
  unfold handleGenerateReport, disabled in *.
  destruct (jsonInput st) as [| |v]; cbn in Hdisabled; [done..|].
  cbn. by destruct (requestBody engineMessage (parsed v)).
Qed.

Lemma disabled_false (st : State) :
  disabled st = false ↔
  (∃ v, jsonInput st = parsed v) ∧ isGenerating st = false.
Proof.
  unfold disabled. split.
  - destruct (jsonInput st) as [| |v], (isGenerating st); try done. eauto.
  - by intros [[v ->] ->].
Qed.

(** Requests are posted one at a time: along every use of the page a
    request is awaited only if it was posted, one file at most is saved
    for each of the other requests, and no more requests are posted than
    have come to their end, but for the one awaited. *)
Theorem one_request_at_a_time (engineMessage : string)
    (events : list Event) :
  let st := run engineMessage events initial in
  length (saved st) + pending st ≤ length (posted st) ∧
  length (posted st) ≤ settles events + pending st.
Proof.
  induction events as [|event events IH] using rev_ind; [cbv; lia|].
  rewrite run_snoc, settles_snoc. cbv zeta in IH.
  set (st := run engineMessage events initial) in *. clearbody st.
  destruct event as [input| |response].
  - unfold pending in *. cbn in *. lia.
  - destruct (disabled st) eqn:Hdisabled.
    { unfold step. rewrite Hdisabled. cbn. lia. }
    rewrite step_clicked by done.
    apply disabled_false in Hdisabled as [_ Hidle].
    unfold pending in *. rewrite Hidle in IH.
    destruct (requestBody engineMessage (jsonInput st));
      cbn; rewrite ?length_app; cbn; lia.
  - unfold step, pending in *. destruct (isGenerating st) eqn:Hbusy.
    + destruct response; cbn; rewrite ?length_app; cbn; lia.
    + rewrite Hbusy. cbn. lia.
Qed.

(** The two messages are never shown together: along every use of the
    page the error message or the success message is empty, and both are
    while a request is awaited. *)
Theorem messages_exclude_each_other (engineMessage : string)
    (events : list Event) :
  let st := run engineMessage events initial in
  (error st = "" ∨ success st = "") ∧
  (isGenerating st = true → error st = "" ∧ success st = "").
Proof.
  induction events as [|event events IH] using rev_ind;
    [by split; [left|]|].
  rewrite run_snoc. cbv zeta in IH.
  set (st := run engineMessage events initial) in *. clearbody st.
  destruct event as [input| |response].
  - by split; [left|].
  - destruct (disabled st) eqn:Hdisabled.
    { unfold step. by rewrite Hdisabled. }
    rewrite step_clicked by done.
    destruct (requestBody engineMessage (jsonInput st)); cbn;
      (split; [first [by left | by right]|done]).
  - unfold step. destruct (isGenerating st) eqn:Hbusy; [|by rewrite Hbusy].
    destruct IH as [_ [Herror Hsuccess]]; [done|].
    destruct response; cbn; rewrite ?Herror, ?Hsuccess;
      (split; [first [by left | by right]|done]).
Qed.

(** Every saved report takes a paste of its own: along every use of the
    page the files saved, and the text that can still be generated from,
    are no more than the texts put into the text area. *)
Theorem each_report_needs_a_paste (engineMessage : string)
    (events : list Event) :
  let st := run engineMessage events initial in
  length (saved st) + unspent st ≤ pastes events.
Proof.
  induction events as [|event events IH] using rev_ind; [cbv; lia|].
  rewrite run_snoc, pastes_snoc. cbv zeta in IH.
  set (st := run engineMessage events initial) in *. clearbody st.
  destruct event as [input| |response].
  - unfold unspent, pending in *. cbn.
    destruct input, (jsonInput st), (isGenerating st); cbn in *; lia.
  - destruct (disabled st) eqn:Hdisabled.
    { unfold step. rewrite Hdisabled. cbn. lia. }
    rewrite step_clicked by done.
    apply disabled_false in Hdisabled as [[v Hv] Hidle].
    unfold unspent, pending in *. rewrite Hv in IH.
    destruct (requestBody engineMessage (jsonInput st));
      cbn; rewrite Hv; cbn; lia.
  - unfold step, unspent, pending in *.
    destruct (isGenerating st) eqn:Hbusy.
    + destruct response; cbn in *; rewrite ?length_app; cbn;
        destruct (jsonInput st); lia.
    + rewrite Hbusy. cbn. lia.
Qed.

Lemma withoutQuotes_clean (s : string) :
  Forall (λ c, c ∉ quotes) (String.list_ascii_of_string (withoutQuotes s)).
Proof.
  induction s as [|c s IH]; cbn [withoutQuotes]; [constructor|].
  destruct (Ascii.eqb c "'") eqn:Hsingle; [done|].
  destruct (Ascii.eqb c "034") eqn:Hdouble; [done|].
  cbn. constructor; [|done].
  apply Ascii.eqb_neq in Hsingle, Hdouble.
  unfold quotes. rewrite !elem_of_cons, elem_of_nil. tauto.
Qed.

Lemma withoutQuotes_id (s : string) :
  Forall (λ c, c ∉ quotes) (String.list_ascii_of_string s) → withoutQuotes s = s.
Proof.
  induction s as [|c s IH]; [done|]. cbn. intros [Hc Hs]%Forall_cons.
  unfold quotes in Hc. rewrite !elem_of_cons, elem_of_nil in Hc.
  destruct (Ascii.eqb c "'") eqn:Hsingle;
    [apply Ascii.eqb_eq in Hsingle; tauto|].
  destruct (Ascii.eqb c "034") eqn:Hdouble;
    [apply Ascii.eqb_eq in Hdouble; tauto|].
  cbn. f_equal. by apply IH.
Qed.

(** The file is saved under a name with no quote in it, whatever the
    header of the response gives; a name of the header that is not empty
    and has no quote is taken as it is. *)
Theorem filename_has_no_quotes (filenameMatch : option string) :
  Forall (λ c, c ∉ quotes) (String.list_ascii_of_string (filenameOf filenameMatch))
  ∧ ∀ group,
      filenameMatch = Some group → group ≠ "" →
      Forall (λ c, c ∉ quotes) (String.list_ascii_of_string group) →
      filenameOf filenameMatch = group.
Proof.
  split.
  - assert (Forall (λ c, c ∉ quotes)
              (String.list_ascii_of_string "南海舆情日报.docx")) as Hdefault.
    { apply (bool_decide_unpack _). vm_compute. exact I. }
    destruct filenameMatch as [group|]; [|done]. unfold filenameOf.
    destruct (String.eqb group ""); [done|]. apply withoutQuotes_clean.
  - intros group -> Hgroup Hclean. unfold filenameOf.
    destruct (String.eqb_spec group ""); [done|]. by apply withoutQuotes_id.
Qed.

Lemma filename_has_no_quotes_witness :
  filenameOf (Some "report.docx") = "report.docx".
Proof.
  apply (filename_has_no_quotes (Some "report.docx")); [done|done|].
  apply (bool_decide_unpack _). vm_compute. exact I.
Defined.

Lemma requestBody_caught (engineMessage : string) (v : Json)
    (caught : Caught) :
  requestBody engineMessage (parsed v) = inr caught →
  ∃ message,
    caught = errorWith message ∧
    message ∈ [engineMessage;
               "JSON格式不正确，请确保包含structured_output字段";
               "JSON中缺少domestic_sources或foreign_sources字段"].
Proof.
  unfold requestBody.
  destruct (property engineMessage "structured_output" v) as [so|thrown]
    eqn:Hso.
  - destruct (falsy so) eqn:Hfalsy.
    { intros [= <-]. eexists. split; [done|].
      rewrite !elem_of_cons. tauto. }
    destruct so as [so|]; [|done]. cbn [default from_option id].
    rewrite !property_truthy by done.
    match goal with
    | |- (if ?b then _ else _) = _ → _ => destruct b
    end; [|done].
    intros [= <-]. eexists. split; [done|]. rewrite !elem_of_cons. tauto.
  - destruct v; try done. cbn in Hso. injection Hso as <-.
    intros [= <-]. eexists. split; [done|]. rewrite !elem_of_cons. tauto.
Qed.

(** A click on the button that is not disabled posts the request, or
    posts nothing and shows one of three messages: that of the missing
    [structured_output], that of the missing sources, or that of the
    engine, for a pasted [null]. *)
Theorem click_posts_or_explains (engineMessage : string) (st : State) :
  disabled st = false →
  let st' := handleGenerateReport engineMessage st in
  (∃ body, requestBody engineMessage (jsonInput st) = inl body ∧
           posted st' = posted st ++ [body] ∧
           isGenerating st' = true ∧ error st' = "") ∨
  (posted st' = posted st ∧ isGenerating st' = false ∧
   error st' ∈ [engineMessage;
                "JSON格式不正确，请确保包含structured_output字段";
                "JSON中缺少domestic_sources或foreign_sources字段"]).
Proof.
  intros Hdisabled. pose proof (step_clicked engineMessage st Hdisabled) as Hstep.
  unfold step in Hstep. rewrite Hdisabled in Hstep. cbv zeta. rewrite Hstep.
  apply disabled_false in Hdisabled as [[v Hv] _]. rewrite Hv.
  destruct (requestBody engineMessage (parsed v)) as [body|caught] eqn:Hbody.
  - left. by exists body.
  - right. apply requestBody_caught in Hbody as (message & -> & Hmessage).
    done.
Qed.

Lemma click_posts_or_explains_witness :
  let st := onChange (parsed JNull) initial in
  let st' := handleGenerateReport "Cannot read properties of null" st in
  (∃ body, requestBody "Cannot read properties of null" (jsonInput st)
           = inl body ∧
           posted st' = posted st ++ [body] ∧
           isGenerating st' = true ∧ error st' = "") ∨
  (posted st' = posted st ∧ isGenerating st' = false ∧
   error st' ∈ ["Cannot read properties of null";
                "JSON格式不正确，请确保包含structured_output字段";
                "JSON中缺少domestic_sources或foreign_sources字段"]).
Proof.
  exact (click_posts_or_explains "Cannot read properties of null"
           (onChange (parsed JNull) initial) eq_refl).
Defined.

Lemma messages_exclude_each_other_witness :
  error (run "" [typed (parsed sampleResponse); clicked] initial) = "" ∧
  success (run "" [typed (parsed sampleResponse); clicked] initial) = "".
Proof.
  apply (messages_exclude_each_other ""
           [typed (parsed sampleResponse); clicked]).
  reflexivity.
Defined.

End ManualMore.

(** ** The history panel: further properties *)

Module HistoryMore.
Import Js CacheService CacheSpec ReportHistory HistorySpec CacheFacts.

Lemma loadCachedReports_run (st : State) (l : list CachedReport)
    (ls : Storage) :
  holds ls l →
  loadCachedReports st ls
  = (Return (setCachedReports (VArray (take 20 l)) st), ls).
Proof.
  intros Hl. unfold loadCachedReports, bind.
  rewrite (getRecentReports_run _ l ls Hl). cbn [default from_option id].
  by rewrite slice_0_nonneg.
Qed.

Lemma holds_unwritten (l kept : list CachedReport) (ls : Storage) :
  holds ls l →
  holds (if full ls then ls else written kept ls)
        (if full ls then l else kept).
Proof. intros Hl. destruct (full ls); [done|apply holds_written]. Qed.

Lemma handleRemove_run (report : CachedReport) (st : State)
    (l : list CachedReport) (ls : Storage) :
  holds ls l →
  let kept := without (uploadId report) l in
  handleRemove true report st ls
  = (Return (onRefresh
               (setCachedReports
                  (VArray (take 20 (if full ls then l else kept))) st)),
     if full ls then ls else written kept ls).
Proof.
  intros Hl kept. unfold handleRemove, bind.
  rewrite (removeReport_run _ l ls Hl). cbv zeta. fold (without (uploadId report) l).
  fold kept.
  by rewrite (loadCachedReports_run st _ _ (holds_unwritten l kept ls Hl)).
Qed.

Lemma handleClear_run (st : State) (ls : Storage) :
  handleClear true st ls
  = (Return (onRefresh (setCachedReports (VArray []) st)),
     exec clearCache ls).
Proof.
  unfold handleClear, bind.
  change (clearCache ls) with (Return (), exec clearCache ls).
  cbv beta iota.
  by rewrite (loadCachedReports_run st [] _ (CacheMore.holds_cleared ls)).
Qed.

Lemma length_without (uploadId' : Z) (l : list CachedReport) :
  NoDup (uploadId <$> l) → uploadId' ∈ uploadId <$> l →
  length (without uploadId' l) = length l - 1.
Proof.
  unfold without. induction l as [|r l IH]; [by intros _ ?%elem_of_nil|].
  rewrite fmap_cons, NoDup_cons, elem_of_cons. intros [Hr Hl] Hin.
  destruct (decide (uploadId r = uploadId')) as [Heq|Hne].
  - rewrite filter_cons_False by (by intros ?).
    cbn. rewrite Nat.sub_0_r. subst uploadId'.
    clear IH Hin Hl. induction l as [|r' l IH]; [done|].
    rewrite fmap_cons, not_elem_of_cons in Hr. destruct Hr as [Hne Hr].
    rewrite filter_cons_True by done. cbn. f_equal. by apply IH.
  - rewrite filter_cons_True by done. destruct Hin as [?|Hin]; [done|].
    cbn. rewrite IH by done. apply list_elem_of_fmap in Hin as (r' & _ & Hr').
    destruct l; [by apply elem_of_nil in Hr'|]. cbn. lia.
Qed.

(** A confirmed removal takes the row of the report away, and no other:
    the cache loses the report, the panel shows the first 20 of what is
    left, so that a report beyond the 20th moves up, and [onRefresh] is
    called; a removal that is not confirmed does nothing. *)
Theorem remove_takes_row_away (ls : Storage) (l : list CachedReport)
    (report : CachedReport) (st : State) :
  holds ls l → full ls = false →
  NoDup (uploadId <$> l) → report ∈ l →
  let kept := without (uploadId report) l in
  ∃ st',
    handleRemove true report st ls = (Return st', written kept ls) ∧
    holds (written kept ls) kept ∧
    rows st' = Return (take 20 kept) ∧
    (∀ r, r ∈ take 20 kept → uploadId r ≠ uploadId report) ∧
    length (take 20 kept) = 20 `min` (length l - 1) ∧
    refreshes st' = S (refreshes st) ∧
    downloadingIds st' = downloadingIds st ∧
    handleRemove false report st ls = (Return st, ls).
Proof.
  intros Hl Hfull Hnodup Hin kept. eexists.
  rewrite (handleRemove_run report st l ls Hl). rewrite Hfull.
  split; [done|]. split; [apply holds_written|]. split; [done|].
  split; [|split; [|done]].
  - intros r Hr%subseteq_take. unfold kept, without in Hr.
    by apply list_elem_of_filter in Hr as [? _].
  - rewrite length_take. unfold kept.
    rewrite length_without; [done..|]. by apply list_elem_of_fmap_2.
Qed.

Lemma remove_takes_row_away_witness :
  ∃ st',
    handleRemove true (sampleReport 2 0) initial
      (written (sampleReports 3) emptyStore)
    = (Return st', written ([sampleReport 1 0; sampleReport 3 0]) emptyStore) ∧
    rows st' = Return ([sampleReport 1 0; sampleReport 3 0]).
Proof.
  destruct (remove_takes_row_away
              (written (sampleReports 3) emptyStore)
              (sampleReports 3) (sampleReport 2 0) initial)
    as (st' & Hrun & _ & Hrows & _).
  - apply holds_written.
  - reflexivity.
  - apply (bool_decide_unpack _). vm_compute. exact I.
  - unfold sampleReports. cbn. rewrite !elem_of_cons. tauto.
  - exists st'. split; [exact Hrun|exact Hrows].
Defined.

Lemma handleDownload_ids (outcome : Outcome unit) (report : CachedReport)
    (st : State) :
  downloadingIds (handleDownload outcome report st)
  = (downloadingIds st ∪ {[uploadId report]}) ∖ {[uploadId report]} ∧
  cachedReports (handleDownload outcome report st) = cachedReports st.
Proof. by destruct outcome. Qed.

Lemma step_follows (l0 l : list CachedReport) (event : Event) (st : State)
    (ls : Storage) :
  holds ls l → l `sublist_of` l0 →
  cachedReports st = VArray (take 20 l) → downloadingIds st = ∅ →
  ∃ st' l',
    step event st ls = (Return st', exec (step event st) ls) ∧
    holds (exec (step event st) ls) l' ∧ l' `sublist_of` l0 ∧
    cachedReports st' = VArray (take 20 l') ∧ downloadingIds st' = ∅.
Proof.
  intros Hl Hsub Hrows Hids.
  assert (∃ st' l',
            ret st ls = (Return st', ls) ∧ holds ls l' ∧
            l' `sublist_of` l0 ∧
            cachedReports st' = VArray (take 20 l') ∧
            downloadingIds st' = ∅) as Hidle by (by exists st, l).
  unfold exec, step, rows. rewrite Hrows.
  destruct (take 20 l) as [|first others] eqn:Htake; [exact Hidle|].
  destruct event as [|row confirmed|confirmed|row outcome].
  - rewrite (loadCachedReports_run st l ls Hl). by eexists _, l.
  - destruct ((first :: others) !! row) as [report|]; [|exact Hidle].
    destruct confirmed; [|exact Hidle].
    rewrite (handleRemove_run report st l ls Hl). cbv zeta.
    eexists _, _. split; [done|]. split; [by apply holds_unwritten|].
    split; [|done].
    destruct (full ls); [done|]. etrans; [|done].
    apply sublist_filter.
  - destruct confirmed; [|exact Hidle].
    rewrite handleClear_run. eexists _, []. split; [done|].
    split; [apply CacheMore.holds_cleared|].
    split; [apply sublist_nil_l|done].
  - destruct ((first :: others) !! row) as [report|]; [|exact Hidle].
    destruct (downloadDisabled report st); [exact Hidle|].
    exists (handleDownload outcome report st), l.
    destruct (handleDownload_ids outcome report st) as [Hset Hsame].
    do 3 (split; [done|]). split; [by rewrite Hsame, Htake|].
    rewrite Hset, Hids. apply set_eq. intros x. rewrite elem_of_difference, elem_of_union.
    rewrite elem_of_empty. tauto.
Qed.

(** The panel follows the cache through its own actions: after every
    sequence of refreshing, removing, clearing and downloading, on a store
    that holds an array of reports, no handler has thrown, the panel shows
    the first 20 reports of the cache as it then is, the cache holds a
    subsequence of what it held, and no download button is left
    disabled. *)
Theorem panel_follows_cache (ls : Storage) (l : list CachedReport)
    (events : list Event) :
  holds ls l →
  ∃ st' l',
    session events ls = (Return st', exec (session events) ls) ∧
    holds (exec (session events) ls) l' ∧ l' `sublist_of` l ∧
    rows st' = Return (take 20 l') ∧ downloadingIds st' = ∅.
Proof.
  intros Hl. unfold exec, session, mount, bind at 1 2 3.
  rewrite (loadCachedReports_run initial l ls Hl).
  assert (∀ st ls l', holds ls l' → l' `sublist_of` l →
            cachedReports st = VArray (take 20 l') → downloadingIds st = ∅ →
            ∃ st' l'',
              runAll events st ls = (Return st', (runAll events st ls).2) ∧
              holds (runAll events st ls).2 l'' ∧ l'' `sublist_of` l ∧
              rows st' = Return (take 20 l'') ∧ downloadingIds st' = ∅)
    as Hrun.
  { clear ls Hl. induction events as [|event events IH];
      intros st ls l' Hl' Hsub Hrows Hids.
    - exists st, l'. unfold rows. by rewrite Hrows.
    - destruct (step_follows l l' event st ls Hl' Hsub Hrows Hids)
        as (st1 & l1 & Hstep & Hl1 & Hsub1 & Hrows1 & Hids1).
      cbn [runAll]. unfold bind. rewrite Hstep.
      by apply IH with l1. }
  by apply Hrun with l.
Qed.

Lemma panel_follows_cache_witness :
  ∃ st' l',
    session [remove 0 true; download 0 (Return ())]
      (written (sampleReports 3) emptyStore)
    = (Return st',
       exec (session [remove 0 true; download 0 (Return ())])
         (written (sampleReports 3) emptyStore)) ∧
    holds (exec (session [remove 0 true; download 0 (Return ())])
             (written (sampleReports 3) emptyStore)) l' ∧
    l' `sublist_of` sampleReports 3 ∧
    rows st' = Return (take 20 l') ∧ downloadingIds st' = ∅.
Proof.
  apply (panel_follows_cache
           (written (sampleReports 3) emptyStore)
           (sampleReports 3)
           [remove 0 true; download 0 (Return ())]).
  apply holds_written.
Defined.

Lemma runAll_idle (events : list Event) (st : State) (ls : Storage) :
  (∀ first others, rows st ≠ Return (first :: others)) →
  runAll events st ls = (Return st, ls).
Proof.
  intros Hrows. induction events as [|event events IH]; [done|].
  cbn [runAll]. unfold bind, step.
  destruct (rows st) as [[|first others]|e] eqn:Hst; [done| |done].
  by destruct (Hrows first others).
Qed.

(** The panel cannot repair a store whose item is the JSON text of
    something that is no array: whatever the user does, the store is left
    as it is and no row is shown, the panel failing to mount or to render
    unless the value is a string, which shows as an empty history. *)
Theorem panel_leaves_foreign_value (ls : Storage) (v : JsValue)
    (events : list Event) :
  stores ls v → ¬ isArray v →
  exec (session events) ls = ls ∧
  match (session events ls).1 with
  | Return st' =>
      (∃ s, v = VString s) ∧
      ∀ reports, rows st' = Return reports → reports = []
  | Throw e => e = TypeError ∧ ∀ s, v ≠ VString s
  end.
Proof.
  intros Hv Harray. unfold exec, session, mount, loadCachedReports.
  unfold bind at 1 2, getRecentReports, bind.
  rewrite getCachedReports_run. unfold cachedValue. rewrite Hv.
  destruct v as [l| | | |s|]; [done|try done..].
  cbn [default from_option id ret].
  rewrite runAll_idle.
  - cbn. split; [done|]. split; [by eexists|].
    unfold rows. cbn. intros reports. by case_decide; intros [= <-].
  - intros first others. unfold rows. cbn. by case_decide.
Qed.

Lemma panel_leaves_foreign_value_witness :
  exec (session [clear true])
    {| items := {[CACHE_KEY := Json VNull]}; full := false |}
  = {| items := {[CACHE_KEY := Json VNull]}; full := false |}.
Proof.
  apply (panel_leaves_foreign_value
           {| items := {[CACHE_KEY := Json VNull]}; full := false |}
           VNull [clear true]).
  - apply lookup_singleton_eq.
  - intros [].
Defined.

End HistoryMore.
